(** * Neuron-astrocyte associative memory network: the simulation cell

    Shallow embedding of the tutorial notebook
    [Basic Neuron-Astrocyte Associative Memory Network Tutorial]:
    the helper [generate_corruption_vector] and the forward-simulation
    cell (memory bank, initial conditions, Euler loop, distance report).

    Conventions of the embedding.
    - torch float tensors are taken in exact arithmetic: a scalar is a real
      number ([R]), [torch.tanh] is [tanh], [torch.atanh] is the inverse
      of [tanh] on (-1,1).  Rounding, infinities and NaN are outside the
      model; in particular the real [tanh] never reaches +-1, which the
      float32 one does.  Where a property depends on that, the activation
      or the rounding is a parameter of the statement ([psi_0_with],
      [generate_corruption_vector_rnd]).
    - a vector is the list of its entries; a matrix carries its shape
      (a tensor of shape (0,K) still has K columns) and the list of its
      rows.  Elementwise and contraction operations are written entry by
      entry over the shape of the left operand; the cell only ever
      combines tensors of equal shapes (all are built from [N] and [K]).
    - Python names live in a namespace (a dict from names to references);
      tensors live in a heap of objects, so that [x0.clone()], the column
      view [etas[:, k]] and the in-place [+=] are told apart.
    - Python and torch exceptions are results [Raise e]; storage is
      unbounded (no allocation fails).
    - the values handed out by the global random generator are inputs
      ([draws]). *)

From Stdlib Require Import Reals Lra ZArith.
From stdpp Require Import gmap strings list fin_maps.

Local Open Scope R_scope.

(** ** Dense tensors *)

Definition tabulate {A : Type} (n : nat) (f : nat -> A) : list A :=
  map f (seq 0 n).

Definition Vec := list R.

Record Mat := mkMat { nrows : nat; ncols : nat; body : list (list R) }.

Definition vget (v : Vec) (i : nat) : R := nth i v 0.

Definition mget (M : Mat) (i j : nat) : R := nth j (nth i (body M) []) 0.

Definition vtab (n : nat) (f : nat -> R) : Vec := tabulate n f.

Definition mtab (n k : nat) (f : nat -> nat -> R) : Mat :=
  mkMat n k (tabulate n (fun i => tabulate k (f i))).

(** Finite sum of [f 0 .. f (n-1)]. *)
Fixpoint rsum (n : nat) (f : nat -> R) : R :=
  match n with
  | O => 0
  | S n' => rsum n' f + f n'
  end.

(** [a * v], [-v], [u + v], [u - v], [u * v] (elementwise) on vectors. *)
Definition smulv (a : R) (v : Vec) : Vec := vtab (length v) (fun i => a * vget v i).
Definition vneg (v : Vec) : Vec := vtab (length v) (fun i => - vget v i).
Definition vadd (u v : Vec) : Vec := vtab (length u) (fun i => vget u i + vget v i).
Definition vsub (u v : Vec) : Vec := vtab (length u) (fun i => vget u i - vget v i).
Definition vmul (u v : Vec) : Vec := vtab (length u) (fun i => vget u i * vget v i).
Definition vmap (f : R -> R) (v : Vec) : Vec := vtab (length v) (fun i => f (vget v i)).

(** [a * M], [-M], [A + B] and elementwise application on matrices. *)
Definition smulm (a : R) (M : Mat) : Mat :=
  mtab (nrows M) (ncols M) (fun i j => a * mget M i j).
Definition mneg (M : Mat) : Mat :=
  mtab (nrows M) (ncols M) (fun i j => - mget M i j).
Definition madd (A B : Mat) : Mat :=
  mtab (nrows A) (ncols A) (fun i j => mget A i j + mget B i j).
Definition mmap (f : R -> R) (M : Mat) : Mat :=
  mtab (nrows M) (ncols M) (fun i j => f (mget M i j)).

(** [S @ h]: matrix-vector product. *)
Definition matvec (S : Mat) (h : Vec) : Vec :=
  vtab (nrows S) (fun i => rsum (ncols S) (fun j => mget S i j * vget h j)).

(** [torch.outer(u, v)]. *)
Definition outer (u v : Vec) : Mat :=
  mtab (length u) (length v) (fun i j => vget u i * vget v j).

(** [M[:, k]] read as a vector. *)
Definition column (M : Mat) (k : nat) : Vec :=
  vtab (nrows M) (fun i => mget M i k).

(** Writing a vector into column [k] (an in-place update through a view). *)
Definition set_column (M : Mat) (k : nat) (v : Vec) : Mat :=
  mtab (nrows M) (ncols M)
       (fun i j => if Nat.eqb j k then vget v i else mget M i j).

(** [torch.einsum('im,jm,km,lm,kl->ij', A, B, C, D, E)]: the output is
    indexed by [i] and [j]; the indices [m], [k], [l], which do not occur
    in the output, are summed over the product of the five operands. *)
Definition einsum_im_jm_km_lm_kl (A B C D E : Mat) : Mat :=
  mtab (nrows A) (nrows B) (fun i j =>
    rsum (ncols A) (fun m =>
      rsum (nrows C) (fun k =>
        rsum (nrows D) (fun l =>
          mget A i m * mget B j m * mget C k m * mget D l m * mget E k l)))).

(** [torch.atanh] on (-1,1), in exact arithmetic.  At +-1 and beyond,
    where [torch.atanh] returns an infinity or NaN, the value of this
    function means nothing; the properties that depend on its values are
    stated for arguments inside (-1,1). *)
Definition atanh (x : R) : R := ln ((1 + x) / (1 - x)) / 2.

Definition torch_tanh_v : Vec -> Vec := vmap tanh.
Definition torch_tanh_m : Mat -> Mat := mmap tanh.
Definition torch_atanh_m : Mat -> Mat := mmap atanh.

(** [torch.sign] and [torch.norm] (2-norm) of a vector. *)
Definition sign (r : R) : R :=
  if Rlt_dec r 0 then -1 else if Rlt_dec 0 r then 1 else 0.

Definition torch_sign (v : Vec) : Vec := vmap sign v.

Definition torch_norm (v : Vec) : R :=
  sqrt (rsum (length v) (fun i => vget v i * vget v i)).

(** ** The two forms of the contraction named by the specification *)

(** Direct summation:
    [Contract[i,j] = sum_{k,l} psi[k,l] * (sum_m e[i,m] e[j,m] e[k,m] e[l,m])]. *)
Definition Contract_naive (etas psi : Mat) : Mat :=
  mtab (nrows etas) (nrows etas) (fun i j =>
    rsum (nrows etas) (fun k =>
      rsum (nrows etas) (fun l =>
        mget psi k l *
        rsum (ncols etas) (fun m =>
          mget etas i m * mget etas j m * mget etas k m * mget etas l m)))).

(** Per-memory scalar [v_m = h_m^T psi h_m], [h_m] the column [m] of [etas]. *)
Definition v_m (etas psi : Mat) (m : nat) : R :=
  rsum (nrows etas) (fun k =>
    rsum (nrows etas) (fun l => mget etas k m * mget psi k l * mget etas l m)).

(** Factorized form: [Contract[i,j] = sum_m e[i,m] e[j,m] v_m]. *)
Definition Contract_factorized (etas psi : Mat) : Mat :=
  mtab (nrows etas) (nrows etas) (fun i j =>
    rsum (ncols etas) (fun m => mget etas i m * mget etas j m * v_m etas psi m)).

(** ** Exceptions *)

Inductive exn : Type :=
| ZeroDivisionError
| IndexError
| RuntimeError
| NameError
| TypeError.

Inductive result (A : Type) : Type :=
| Ok (a : A)
| Raise (e : exn).
Arguments Ok {A} a.
Arguments Raise {A} e.

(** Python's true division [a / b]. *)
Definition py_div (a b : R) : result R :=
  if Req_dec_T b 0 then Raise ZeroDivisionError else Ok (a / b).

(** ** Random draws *)

(** What the generator returns to the two sampling calls of the cell:
    [randint_draw i j] is entry (i,j) of [torch.randint(2, (N, K))],
    [rand_draw i] is entry i of [torch.rand(length)]. *)
Record draws := mkDraws { randint_draw : nat -> nat -> Z; rand_draw : nat -> R }.

(** Right-hand side of [etas = 2 * torch.randint(2, (N, K)).float() - 1];
    a negative dimension is refused by torch.  (So is a size of 2^63 or
    more, with another exception: that limit is not modelled, see
    [int64_config].) *)
Definition etas_rhs (N K : Z) (bits : nat -> nat -> Z) : result Mat :=
  if (N <? 0)%Z || (K <? 0)%Z then Raise RuntimeError
  else Ok (mtab (Z.to_nat N) (Z.to_nat K) (fun i j => 2 * IZR (bits i j) - 1)).

(** [generate_corruption_vector(length, corruption, device)]: the integer
    tensor [torch.where(random_vector <= 1 - corruption, 1, -1)]. *)
Definition generate_corruption_vector
    (length : Z) (corruption : R) (rand : nat -> R) : result (list Z) :=
  if (length <? 0)%Z then Raise RuntimeError
  else
    let random_vector := tabulate (Z.to_nat length) rand in
    let output_vector :=
      map (fun u => if Rle_dec u (1 - corruption) then 1%Z else (-1)%Z)
          random_vector in
    Ok output_vector.

(** [generate_corruption_vector] with the precision of the comparison made
    explicit: [random_vector <= (1 - corruption)] compares a float32 tensor
    with a Python number, which is first rounded to the tensor's precision
    ([rnd]).  [generate_corruption_vector] is the case of no rounding. *)
Definition generate_corruption_vector_rnd
    (rnd : R -> R) (length : Z) (corruption : R) (rand : nat -> R)
  : result (list Z) :=
  if (length <? 0)%Z then Raise RuntimeError
  else
    let random_vector := tabulate (Z.to_nat length) rand in
    let output_vector :=
      map (fun u => if Rle_dec u (rnd (1 - corruption)) then 1%Z else (-1)%Z)
          random_vector in
    Ok output_vector.

(** An integer tensor promoted to float in a mixed product. *)
Definition to_float (v : list Z) : Vec := map IZR v.

(** ** Objects, references and the namespace *)

Inductive object : Type :=
| OVec (v : Vec)
| OMat (M : Mat).

(** A name refers to a tensor object, or to a column view of a matrix
    object (which shares the matrix's storage). *)
Inductive binding : Type :=
| Whole (l : nat)
| Column (l : nat) (k : nat).

Record store := mkStore { heap : list object; env : gmap string binding }.

(** The kernel after the first cell (imports, [device], the helper) and
    before the simulation cell: none of that cell's names is bound yet. *)
Definition fresh_kernel : store := mkStore [] ∅.

Definition Py (A : Type) : Type := store -> result (A * store).

Definition ret {A} (a : A) : Py A := fun s => Ok (a, s).

Definition bind {A B} (m : Py A) (k : A -> Py B) : Py B :=
  fun s => match m s with
           | Ok (a, s') => k a s'
           | Raise e => Raise e
           end.

Definition lift {A} (r : result A) : Py A :=
  fun s => match r with Ok a => Ok (a, s) | Raise e => Raise e end.

Notation "x <- m ;; k" := (bind m (fun x => k))
  (at level 100, m at next level, right associativity).
Notation "m ;;; k" := (bind m (fun _ => k))
  (at level 100, right associativity).

(** Name lookup: an unbound name is a [NameError]. *)
Definition lookup_name (x : string) : Py binding :=
  fun s => match env s !! x with
           | Some b => Ok (b, s)
           | None => Raise NameError
           end.

(** The tensor a reference denotes. *)
Definition deref (b : binding) (h : list object) : option object :=
  match b with
  | Whole l => h !! l
  | Column l k =>
      match h !! l with
      | Some (OMat M) => Some (OVec (column M k))
      | _ => None
      end
  end.

Definition read (x : string) : Py object :=
  b <- lookup_name x ;;
  fun s => match deref b (heap s) with
           | Some o => Ok (o, s)
           | None => Raise TypeError
           end.

Definition read_vec (x : string) : Py Vec :=
  o <- read x ;;
  match o with OVec v => ret v | OMat _ => lift (Raise TypeError) end.

Definition read_mat (x : string) : Py Mat :=
  o <- read x ;;
  match o with OMat M => ret M | OVec _ => lift (Raise TypeError) end.

(** A freshly created tensor gets a new place in the heap. *)
Definition new_tensor (o : object) : Py binding :=
  fun s => Ok (Whole (length (heap s)), mkStore (heap s ++ [o]) (env s)).

(** [x = <reference>]. *)
Definition assign (x : string) (b : binding) : Py unit :=
  fun s => Ok (tt, mkStore (heap s) (<[x := b]> (env s))).

(** [x = <expression creating a tensor>]. *)
Definition let_new (x : string) (o : object) : Py unit :=
  b <- new_tensor o ;; assign x b.

(** [t.clone()]. *)
Definition clone (x : string) : Py binding :=
  o <- read x ;; new_tensor o.

(** Storing through a reference: the object itself is overwritten (for a
    view, the column of the underlying matrix). *)
Definition write (b : binding) (o : object) : Py unit :=
  fun s =>
    match b, o with
    | Whole l, _ =>
        match heap s !! l with
        | Some _ => Ok (tt, mkStore (<[l := o]> (heap s)) (env s))
        | None => Raise TypeError
        end
    | Column l k, OVec v =>
        match heap s !! l with
        | Some (OMat M) =>
            Ok (tt, mkStore (<[l := OMat (set_column M k v)]> (heap s)) (env s))
        | _ => Raise TypeError
        end
    | Column _ _, OMat _ => Raise TypeError
    end.

(** [x += d] on tensors: the object [x] refers to is updated in place. *)
Definition iadd_vec (x : string) (d : Vec) : Py unit :=
  b <- lookup_name x ;;
  v <- read_vec x ;;
  write b (OVec (vadd v d)).

Definition iadd_mat (x : string) (D : Mat) : Py unit :=
  b <- lookup_name x ;;
  M <- read_mat x ;;
  write b (OMat (madd M D)).

(** [M[:, idx]] for a Python integer index: negative indices count from
    the end, anything outside [-ncols, ncols) is an [IndexError]. *)
Definition select_column (x : string) (idx : Z) : Py binding :=
  b <- lookup_name x ;;
  M <- read_mat x ;;
  match b with
  | Whole l =>
      let k := Z.of_nat (ncols M) in
      if (0 <=? idx)%Z && (idx <? k)%Z then ret (Column l (Z.to_nat idx))
      else if (- k <=? idx)%Z && (idx <? 0)%Z then ret (Column l (Z.to_nat (idx + k)))
      else lift (Raise IndexError)
  | Column _ _ => lift (Raise IndexError)
  end.

(** [for _ in range(n): body]. *)
Fixpoint for_range (n : nat) (body : Py unit) : Py unit :=
  match n with
  | O => ret tt
  | S n' => body ;;; for_range n' body
  end.

(** ** The simulation cell *)

Record config := mkConfig {
  N : Z;
  K : Z;
  NUM_STEPS : Z;
  dt : R;
  beta : R;
  corruption_level : R;
  memory_to_seed_from : Z
}.

(** The tutorial's parameters. *)
Definition tutorial_config : config :=
  mkConfig 500 10 1000 (5 / 100) 5 (1 / 10) 2.

(** Right-hand sides of the initial-condition assignments. *)
Definition x0_rhs (mem : Vec) (corruption_vector : list Z) : Vec :=
  vmul mem (to_float corruption_vector).

Definition psi_0_rhs (beta : R) (x0 : Vec) : Mat :=
  mneg (outer (torch_tanh_v (smulv beta x0)) (torch_tanh_v (smulv beta x0))).

(** [psi_0] with the activation left open.  [act] stands for [torch.tanh]
    as the tensor library evaluates it: in exact arithmetic it is [tanh]
    ([psi_0_rhs] is [psi_0_with tanh]); in float32 it returns exactly 1
    for arguments from about 9.02 on. *)
Definition psi_0_with (act : R -> R) (beta : R) (x0 : Vec) : Mat :=
  mneg (outer (vmap act (smulv beta x0)) (vmap act (smulv beta x0))).

Definition P0_rhs (inv_beta : R) (psi_0 : Mat) : Mat :=
  smulm inv_beta (torch_atanh_m psi_0).

Definition S0_rhs (inv_beta inv_N3 : R) (etas psi_0 : Mat) : Mat :=
  smulm inv_beta
    (torch_atanh_m
       (smulm (- inv_N3) (einsum_im_jm_km_lm_kl etas etas etas etas psi_0))).

(** Right-hand sides of the three in-place updates of the loop. *)
Definition x_incr (dt : R) (x : Vec) (S : Mat) (h : Vec) : Vec :=
  smulv dt (vadd (vneg x) (matvec S h)).

Definition S_incr (dt : R) (S : Mat) (h : Vec) (psi : Mat) : Mat :=
  smulm dt (madd (madd (mneg S) (outer h h)) psi).

Definition P_incr (dt inv_N3 : R) (P etas psi g : Mat) : Mat :=
  smulm dt
    (madd (madd (mneg P)
                (smulm inv_N3 (einsum_im_jm_km_lm_kl etas etas etas etas psi)))
          g).

(** Memory bank, seed and initial conditions, up to the clones. *)
Definition setup (c : config) (d : draws) : Py unit :=
  (* etas = 2 * torch.randint(2, (N, K), device=device).float() - 1 *)
  etas <- lift (etas_rhs (N c) (K c) (randint_draw d)) ;;
  let_new "etas" (OMat etas) ;;;
  (* mem = etas[:, memory_to_seed_from] *)
  b <- select_column "etas" (memory_to_seed_from c) ;;
  assign "mem" b ;;;
  (* x0 = mem * generate_corruption_vector(N, corruption_level, device) *)
  mem <- read_vec "mem" ;;
  cv <- lift (generate_corruption_vector (N c) (corruption_level c) (rand_draw d)) ;;
  let_new "x0" (OVec (x0_rhs mem cv)) ;;;
  (* psi_0 = -torch.outer(torch.tanh(beta * x0), torch.tanh(beta * x0)) *)
  x0 <- read_vec "x0" ;;
  let_new "psi_0" (OMat (psi_0_rhs (beta c) x0)) ;;;
  (* P0 = (1 / beta) * torch.atanh(psi_0) *)
  inv_beta <- lift (py_div 1 (beta c)) ;;
  psi_0 <- read_mat "psi_0" ;;
  let_new "P0" (OMat (P0_rhs inv_beta psi_0)) ;;;
  (* S0 = (1 / beta) * torch.atanh(-(1 / N ** 3) * torch.einsum(...)) *)
  inv_beta <- lift (py_div 1 (beta c)) ;;
  inv_N3 <- lift (py_div 1 (IZR (N c ^ 3))) ;;
  etas <- read_mat "etas" ;;
  psi_0 <- read_mat "psi_0" ;;
  let_new "S0" (OMat (S0_rhs inv_beta inv_N3 etas psi_0)) ;;;
  (* x, S, P = x0.clone(), S0.clone(), P0.clone() *)
  bx <- clone "x0" ;;
  bS <- clone "S0" ;;
  bP <- clone "P0" ;;
  assign "x" bx ;;;
  assign "S" bS ;;;
  assign "P" bP.

(** One iteration of the Euler loop. *)
Definition loop_body (c : config) : Py unit :=
  (* h = torch.tanh(beta * x) *)
  x <- read_vec "x" ;;
  let_new "h" (OVec (torch_tanh_v (smulv (beta c) x))) ;;;
  (* g = torch.tanh(beta * S) *)
  S <- read_mat "S" ;;
  let_new "g" (OMat (torch_tanh_m (smulm (beta c) S))) ;;;
  (* psi = torch.tanh(beta * P) *)
  P <- read_mat "P" ;;
  let_new "psi" (OMat (torch_tanh_m (smulm (beta c) P))) ;;;
  (* x += dt * (-x + S @ h) *)
  x <- read_vec "x" ;;
  S <- read_mat "S" ;;
  h <- read_vec "h" ;;
  iadd_vec "x" (x_incr (dt c) x S h) ;;;
  (* S += dt * (-S + torch.outer(h, h) + psi) *)
  S <- read_mat "S" ;;
  h <- read_vec "h" ;;
  psi <- read_mat "psi" ;;
  iadd_mat "S" (S_incr (dt c) S h psi) ;;;
  (* P += dt * (-P + (1 / N ** 3) * torch.einsum(...) + g) *)
  P <- read_mat "P" ;;
  inv_N3 <- lift (py_div 1 (IZR (N c ^ 3))) ;;
  etas <- read_mat "etas" ;;
  psi <- read_mat "psi" ;;
  g <- read_mat "g" ;;
  iadd_mat "P" (P_incr (dt c) inv_N3 P etas psi g).

(** [for _ in tqdm(range(NUM_STEPS)): ...] run for [n] iterations. *)
Definition integrate (c : config) (n : nat) : Py unit :=
  for_range n (loop_body c).

(** The cell up to the end of the loop. *)
Definition simulation (c : config) (d : draws) : Py unit :=
  setup c d ;;; integrate c (Z.to_nat (NUM_STEPS c)).

(** [initial_distance = torch.norm(torch.sign(x0) - mem)]. *)
Definition initial_distance : Py R :=
  x0 <- read_vec "x0" ;;
  mem <- read_vec "mem" ;;
  ret (torch_norm (vsub (torch_sign x0) mem)).

(** [final_distance = torch.norm(torch.sign(h) - mem)]. *)
Definition final_distance : Py R :=
  h <- read_vec "h" ;;
  mem <- read_vec "mem" ;;
  ret (torch_norm (vsub (torch_sign h) mem)).

(** The whole cell, from a fresh kernel: simulation, then the two
    distances (the [print] calls only display them). *)
Definition cell (c : config) (d : draws) : Py (R * R) :=
  simulation c d ;;;
  initial <- initial_distance ;;
  final <- final_distance ;;
  ret (initial, final).

(** ** Reading a finished run *)

(** The tensor a name denotes in a store, if any. *)
Definition value_of (s : store) (x : string) : option object :=
  match env s !! x with
  | Some b => deref b (heap s)
  | None => None
  end.

(** The store reached from a fresh kernel, when no exception is raised. *)
Definition run {A} (m : Py A) : result store :=
  match m fresh_kernel with
  | Ok (_, s) => Ok s
  | Raise e => Raise e
  end.

(** Shape of a tensor as torch reports it. *)
Definition has_shape (M : Mat) (n k : nat) : Prop :=
  nrows M = n /\ ncols M = k /\ length (body M) = n /\
  Forall (fun r => length r = k) (body M).

(** A square matrix equal to its transpose. *)
Definition symmetric (M : Mat) : Prop :=
  ncols M = nrows M /\
  forall i j, (i < nrows M)%nat -> (j < nrows M)%nat -> mget M i j = mget M j i.

(** ** Explicit Euler step on the triple, as the specification writes it *)

Definition euler_step (dt beta inv_N3 : R) (etas : Mat) (st : Vec * Mat * Mat)
  : Vec * Mat * Mat :=
  let x := fst (fst st) in
  let S := snd (fst st) in
  let P := snd st in
  let h := torch_tanh_v (smulv beta x) in
  let g := torch_tanh_m (smulm beta S) in
  let psi := torch_tanh_m (smulm beta P) in
  (vadd x (smulv dt (vadd (vneg x) (matvec S h))),
   madd S (smulm dt (madd (madd (mneg S) (outer h h)) psi)),
   madd P (smulm dt
             (madd (madd (mneg P)
                         (smulm inv_N3
                            (einsum_im_jm_km_lm_kl etas etas etas etas psi)))
                   g))).

Fixpoint euler_iter (n : nat) (dt beta inv_N3 : R) (etas : Mat)
    (st : Vec * Mat * Mat) : Vec * Mat * Mat :=
  match n with
  | O => st
  | S n' => euler_iter n' dt beta inv_N3 etas (euler_step dt beta inv_N3 etas st)
  end.

(** ** Stores the cell passes through, and what is said about them *)

(** The store one iteration produces, given where [x], [S], [P] and
    [etas] live and what they hold. *)
Definition after_loop_body (c : config) (s : store)
    (lx lS lP : nat) (x : Vec) (S P etas : Mat) : store :=
  let h := torch_tanh_v (smulv (beta c) x) in
  let g := torch_tanh_m (smulm (beta c) S) in
  let psi := torch_tanh_m (smulm (beta c) P) in
  let heap1 := heap s ++ [OVec h] in
  let heap2 := heap1 ++ [OMat g] in
  let heap3 := heap2 ++ [OMat psi] in
  mkStore
    (<[lP := OMat (madd P (P_incr (dt c) (1 / IZR (N c ^ 3)) P etas psi g))]>
       (<[lS := OMat (madd S (S_incr (dt c) S h psi))]>
          (<[lx := OVec (vadd x (x_incr (dt c) x S h))]> heap3)))
    (<["psi" := Whole (length heap2)]>
       (<["g" := Whole (length heap1)]>
          (<["h" := Whole (length (heap s))]> (env s)))).

(** The condition under which the statements up to the end of the loop
    raise nothing. *)
Definition runnable (c : config) : Prop :=
  (0 < N c)%Z /\
  (- K c <= memory_to_seed_from c < K c)%Z /\
  beta c <> 0.

(** The values the initial-condition statements compute, by name. *)
Definition etas_of (c : config) (d : draws) : Mat :=
  mtab (Z.to_nat (N c)) (Z.to_nat (K c))
       (fun i j => 2 * IZR (randint_draw d i j) - 1).

Definition col_of (c : config) : nat :=
  if (0 <=? memory_to_seed_from c)%Z then Z.to_nat (memory_to_seed_from c)
  else Z.to_nat (memory_to_seed_from c + K c).

Definition mem_of (c : config) (d : draws) : Vec :=
  column (etas_of c d) (col_of c).

Definition corruption_vector_of (c : config) (d : draws) : list Z :=
  map (fun u => if Rle_dec u (1 - corruption_level c) then 1%Z else (-1)%Z)
      (tabulate (Z.to_nat (N c)) (rand_draw d)).

Definition x0_of (c : config) (d : draws) : Vec :=
  x0_rhs (mem_of c d) (corruption_vector_of c d).

Definition psi_0_of (c : config) (d : draws) : Mat :=
  psi_0_rhs (beta c) (x0_of c d).

Definition P0_of (c : config) (d : draws) : Mat :=
  P0_rhs (1 / beta c) (psi_0_of c d).

Definition S0_of (c : config) (d : draws) : Mat :=
  S0_rhs (1 / beta c) (1 / IZR (N c ^ 3)) (etas_of c d) (psi_0_of c d).

(** The store the initial-condition statements leave in a fresh kernel:
    eight objects in creation order, the last three being the clones. *)
Definition after_setup (c : config) (d : draws) : store :=
  mkStore
    [OMat (etas_of c d); OVec (x0_of c d); OMat (psi_0_of c d);
     OMat (P0_of c d); OMat (S0_of c d);
     OVec (x0_of c d); OMat (S0_of c d); OMat (P0_of c d)]
    (<["P" := Whole 7]> (<["S" := Whole 6]> (<["x" := Whole 5]>
     (<["S0" := Whole 4]> (<["P0" := Whole 3]> (<["psi_0" := Whole 2]>
     (<["x0" := Whole 1]> (<["mem" := Column 0 (col_of c)]>
     (<["etas" := Whole 0]> ∅))))))))).

(** Layout of the store during the loop: the objects of the initial
    conditions at their places, the clones [x], [S], [P] holding the
    current triple, and behind them the tensors [h], [g], [psi] of the
    iterations so far. *)
Definition loop_inv (c : config) (d : draws) (st : Vec * Mat * Mat)
    (s : store) : Prop :=
  (exists tail,
     heap s =
     [OMat (etas_of c d); OVec (x0_of c d); OMat (psi_0_of c d);
      OMat (P0_of c d); OMat (S0_of c d);
      OVec (fst (fst st)); OMat (snd (fst st)); OMat (snd st)] ++ tail) /\
  env s !! "etas" = Some (Whole 0) /\
  env s !! "mem" = Some (Column 0 (col_of c)) /\
  env s !! "x0" = Some (Whole 1) /\
  env s !! "psi_0" = Some (Whole 2) /\
  env s !! "P0" = Some (Whole 3) /\
  env s !! "S0" = Some (Whole 4) /\
  env s !! "x" = Some (Whole 5) /\
  env s !! "S" = Some (Whole 6) /\
  env s !! "P" = Some (Whole 7).

(** The Euler step of a run, and the triple after [n] of them. *)
Definition step_of (c : config) (d : draws) : Vec * Mat * Mat -> Vec * Mat * Mat :=
  euler_step (dt c) (beta c) (1 / IZR (N c ^ 3)) (etas_of c d).

Definition state_after (c : config) (d : draws) (n : nat) : Vec * Mat * Mat :=
  euler_iter n (dt c) (beta c) (1 / IZR (N c ^ 3)) (etas_of c d)
             (x0_of c d, S0_of c d, P0_of c d).

(** [h] names a vector: true from the first iteration on. *)
Definition h_bound (s : store) : Prop :=
  exists lh h, env s !! "h" = Some (Whole lh) /\ heap s !! lh = Some (OVec h).

(** [symmetric] with the side made explicit. *)
Definition sym_n (n : nat) (M : Mat) : Prop :=
  nrows M = n /\ ncols M = n /\
  forall i j, (i < n)%nat -> (j < n)%nat -> mget M i j = mget M j i.


(** The configuration [c] with another [memory_to_seed_from]. *)
Definition with_index (c : config) (idx : Z) : config :=
  mkConfig (N c) (K c) (NUM_STEPS c) (dt c) (beta c) (corruption_level c) idx.

(** Entries of the first [n] indices of a triple [(x, S, P)] within
    [Bx], [BS], [BP] in absolute value. *)
Definition bounded_by (n : nat) (Bx BS BP : R) (st : Vec * Mat * Mat) : Prop :=
  (forall i, (i < n)%nat -> - Bx <= vget (fst (fst st)) i <= Bx) /\
  (forall i j, (i < n)%nat -> (j < n)%nat -> - BS <= mget (snd (fst st)) i j <= BS) /\
  (forall i j, (i < n)%nat -> (j < n)%nat -> - BP <= mget (snd st) i j <= BP).


(** ** Small concrete inputs *)

(** An odd activation that saturates: the identity clipped to [-1,1]. *)
Definition clip (z : R) : R :=
  if Rlt_dec z (-1) then -1 else if Rlt_dec 1 z then 1 else z.

(** A monotone rounding that moves the threshold 0.6 up to 0.75 and leaves
    0, 0.75 and 1 in place; draws 0.75, 0, 0, ... *)
Definition coarse_rounding (x : R) : R :=
  if Rle_dec x (1 / 2) then x else if Rle_dec x (3 / 4) then 3 / 4 else x.

Definition coarse_draws (i : nat) : R := if Nat.eqb i 0 then 3 / 4 else 0.

(** One neuron, one memory, one step; a store with [etas], [x], [S], [P]. *)
Definition c1_config : config := mkConfig 1 1 1 (1 / 2) 1 0 0.

Definition c1_store : store :=
  mkStore
    [OMat (mkMat 1 1 [[1]]); OVec [1]; OMat (mkMat 1 1 [[0]]);
     OMat (mkMat 1 1 [[0]])]
    (<["P" := Whole 3]> (<["S" := Whole 2]> (<["x" := Whole 1]>
     (<["etas" := Whole 0]> ∅)))).

(** Two generators that agree on position (0,0) and 0 and nowhere else. *)
Definition unit_draws : draws := mkDraws (fun _ _ => 1%Z) (fun _ => 0).

Definition other_draws : draws :=
  mkDraws (fun i j => if Nat.eqb i 0 && Nat.eqb j 0 then 1%Z else 0%Z)
          (fun i => if Nat.eqb i 0 then 0 else 1 / 2).

(** Two neurons, one memory, three steps; a symmetric 2 x 2 matrix. *)
Definition c5_config : config := mkConfig 2 1 3 (1 / 2) 1 0 0.

Definition c5_matrix : Mat := mkMat 2 2 [[0; 1]; [1; 0]].

(** [dt = -1], [corruption_level = 2], [memory_to_seed_from = -1]. *)
Definition unvalidated_config : config := mkConfig 1 1 1 (-1) 1 2 (-1).


(** Had the cell bound [x] to the object of [x0] (no [clone]), the first
    in-place update would have changed what [x0] denotes. *)
Definition aliased_store : store :=
  mkStore (heap c1_store) (<["x0" := Whole 1]> (env c1_store)).

(** * Properties *)

(** ** Tabulated lists and finite sums *)

Lemma length_tabulate {A} n (f : nat -> A) : length (tabulate n f) = n.
Proof. unfold tabulate. by rewrite length_map, length_seq. Qed.

Lemma nth_tabulate {A} n (f : nat -> A) i (d : A) :
  (i < n)%nat -> nth i (tabulate n f) d = f i.
Proof.
  intros Hi. unfold tabulate.
  rewrite (nth_indep _ d (f 0%nat)) by (rewrite length_map, length_seq; lia).
  rewrite (map_nth f (seq 0 n) 0%nat i), seq_nth by lia. done.
Qed.

Lemma tabulate_ext {A} n (f g : nat -> A) :
  (forall i, (i < n)%nat -> f i = g i) -> tabulate n f = tabulate n g.
Proof.
  intros H. unfold tabulate. apply map_ext_in.
  intros i Hi. apply in_seq in Hi. apply H. lia.
Qed.

Lemma tabulate_nth (v : Vec) : tabulate (length v) (vget v) = v.
Proof.
  apply (nth_ext _ _ 0 0).
  - apply length_tabulate.
  - intros i Hi. rewrite length_tabulate in Hi. by rewrite nth_tabulate.
Qed.

Lemma length_vtab n f : length (vtab n f) = n.
Proof. apply length_tabulate. Qed.

Lemma vget_vtab n f i : (i < n)%nat -> vget (vtab n f) i = f i.
Proof. apply nth_tabulate. Qed.

Lemma vtab_ext n f g :
  (forall i, (i < n)%nat -> f i = g i) -> vtab n f = vtab n g.
Proof. apply tabulate_ext. Qed.

Lemma mget_mtab n k f i j :
  (i < n)%nat -> (j < k)%nat -> mget (mtab n k f) i j = f i j.
Proof.
  intros Hi Hj. unfold mget, mtab. simpl.
  rewrite nth_tabulate by done. by rewrite nth_tabulate.
Qed.

Lemma mtab_ext n k f g :
  (forall i j, (i < n)%nat -> (j < k)%nat -> f i j = g i j) ->
  mtab n k f = mtab n k g.
Proof.
  intros H. unfold mtab. f_equal.
  apply tabulate_ext. intros i Hi. apply tabulate_ext. intros j Hj. by apply H.
Qed.

Lemma mtab_has_shape n k f : has_shape (mtab n k f) n k.
Proof.
  repeat split; simpl.
  - apply length_tabulate.
  - unfold tabulate. apply Forall_forall. intros r Hr.
    apply list_elem_of_In, in_map_iff in Hr. destruct Hr as [i [<- _]].
    apply length_tabulate.
Qed.

Lemma rsum_ext n f g :
  (forall i, (i < n)%nat -> f i = g i) -> rsum n f = rsum n g.
Proof.
  induction n as [|n IH]; intros H; simpl; [done|].
  rewrite IH, H by (intros; try apply H; lia). done.
Qed.

Lemma rsum_plus n f g : rsum n (fun i => f i + g i) = rsum n f + rsum n g.
Proof. induction n as [|n IH]; simpl; [lra|]. rewrite IH. lra. Qed.

Lemma rsum_scal_l n c f : rsum n (fun i => c * f i) = c * rsum n f.
Proof. induction n as [|n IH]; simpl; [lra|]. rewrite IH. lra. Qed.

Lemma rsum_zero n : rsum n (fun _ => 0) = 0.
Proof. induction n as [|n IH]; simpl; [done|]. rewrite IH. lra. Qed.

(** Two nested finite sums may be exchanged. *)
Lemma rsum_exchange n k (f : nat -> nat -> R) :
  rsum n (fun i => rsum k (fun j => f i j)) =
  rsum k (fun j => rsum n (fun i => f i j)).
Proof.
  induction n as [|n IH]; simpl.
  - by rewrite rsum_zero.
  - rewrite IH, <- rsum_plus. done.
Qed.

(** ** Running statements *)

Lemma bind_Ok {A B} (m : Py A) (k : A -> Py B) s a s' :
  m s = Ok (a, s') -> bind m k s = k a s'.
Proof. unfold bind. by intros ->. Qed.

Lemma bind_Raise {A B} (m : Py A) (k : A -> Py B) s e :
  m s = Raise e -> bind m k s = Raise e.
Proof. unfold bind. by intros ->. Qed.

Lemma lift_Ok {A} (r : result A) a s : r = Ok a -> lift r s = Ok (a, s).
Proof. by intros ->. Qed.

Lemma lift_Raise {A} (r : result A) e s : r = Raise e -> lift r s = Raise e.
Proof. by intros ->. Qed.

Lemma py_div_Ok a b : b <> 0 -> py_div a b = Ok (a / b).
Proof. intros Hb. unfold py_div. by destruct (Req_dec_T b 0). Qed.

Lemma py_div_zero a : py_div a 0 = Raise ZeroDivisionError.
Proof. unfold py_div. by destruct (Req_dec_T 0 0). Qed.

Lemma read_vec_whole x l v s :
  env s !! x = Some (Whole l) -> heap s !! l = Some (OVec v) ->
  read_vec x s = Ok (v, s).
Proof.
  intros He Hh. unfold read_vec, read, lookup_name, bind. rewrite He. simpl.
  by rewrite Hh.
Qed.

Lemma read_vec_column x l k M s :
  env s !! x = Some (Column l k) -> heap s !! l = Some (OMat M) ->
  read_vec x s = Ok (column M k, s).
Proof.
  intros He Hh. unfold read_vec, read, lookup_name, bind. rewrite He. simpl.
  by rewrite Hh.
Qed.

Lemma read_mat_whole x l M s :
  env s !! x = Some (Whole l) -> heap s !! l = Some (OMat M) ->
  read_mat x s = Ok (M, s).
Proof.
  intros He Hh. unfold read_mat, read, lookup_name, bind. rewrite He. simpl.
  by rewrite Hh.
Qed.

Lemma let_new_Ok x o s :
  let_new x o s =
  Ok (tt, mkStore (heap s ++ [o]) (<[x := Whole (length (heap s))]> (env s))).
Proof. done. Qed.

Lemma clone_whole x l o s :
  env s !! x = Some (Whole l) -> heap s !! l = Some o ->
  clone x s = Ok (Whole (length (heap s)), mkStore (heap s ++ [o]) (env s)).
Proof.
  intros He Hh. unfold clone, read, lookup_name, bind. rewrite He. simpl.
  by rewrite Hh.
Qed.

Lemma iadd_vec_whole x l v d s :
  env s !! x = Some (Whole l) -> heap s !! l = Some (OVec v) ->
  iadd_vec x d s = Ok (tt, mkStore (<[l := OVec (vadd v d)]> (heap s)) (env s)).
Proof.
  intros He Hh. unfold iadd_vec.
  rewrite (bind_Ok _ _ s (Whole l) s) by (unfold lookup_name; by rewrite He).
  rewrite (bind_Ok _ _ s v s) by by apply (read_vec_whole x l).
  unfold write. by rewrite Hh.
Qed.

Lemma iadd_mat_whole x l M D s :
  env s !! x = Some (Whole l) -> heap s !! l = Some (OMat M) ->
  iadd_mat x D s = Ok (tt, mkStore (<[l := OMat (madd M D)]> (heap s)) (env s)).
Proof.
  intros He Hh. unfold iadd_mat.
  rewrite (bind_Ok _ _ s (Whole l) s) by (unfold lookup_name; by rewrite He).
  rewrite (bind_Ok _ _ s M s) by by apply (read_mat_whole x l).
  unfold write. by rewrite Hh.
Qed.

Ltac env_lookup := cbn [heap env]; simplify_map_eq; done.

Ltac heap_len := rewrite ?length_insert, ?length_app; simpl; lia.

Ltac heap_lookup :=
  cbn [heap env];
  repeat first
    [ rewrite list_lookup_insert_ne by heap_len
    | rewrite list_lookup_insert_eq by heap_len
    | rewrite lookup_app_l by heap_len
    | rewrite list_lookup_middle by heap_len ];
  try done.

Ltac run_read_vec y l v :=
  erewrite bind_Ok by (eapply (read_vec_whole y l v); [env_lookup|heap_lookup]);
  cbn [heap env].
Ltac run_read_mat y l M :=
  erewrite bind_Ok by (eapply (read_mat_whole y l M); [env_lookup|heap_lookup]);
  cbn [heap env].
Ltac run_let_new := erewrite bind_Ok by apply let_new_Ok; cbn [heap env].

Lemma loop_body_exec c s lx lS lP le x S P etas :
  env s !! "x" = Some (Whole lx) ->
  env s !! "S" = Some (Whole lS) ->
  env s !! "P" = Some (Whole lP) ->
  env s !! "etas" = Some (Whole le) ->
  heap s !! lx = Some (OVec x) ->
  heap s !! lS = Some (OMat S) ->
  heap s !! lP = Some (OMat P) ->
  heap s !! le = Some (OMat etas) ->
  lx <> lS -> lx <> lP -> lS <> lP -> le <> lx -> le <> lS ->
  IZR (N c ^ 3) <> 0 ->
  loop_body c s = Ok (tt, after_loop_body c s lx lS lP x S P etas).
Proof.
  intros Ex ES EP Ee Hx HS HP He n1 n2 n3 n4 n5 HN.
  pose proof (lookup_lt_Some _ _ _ Hx) as Lx.
  pose proof (lookup_lt_Some _ _ _ HS) as LS.
  pose proof (lookup_lt_Some _ _ _ HP) as LP.
  pose proof (lookup_lt_Some _ _ _ He) as Le.
  unfold loop_body.
  run_read_vec "x" lx x. run_let_new.
  run_read_mat "S" lS S. run_let_new.
  run_read_mat "P" lP P. run_let_new.
  set (h := torch_tanh_v (smulv (beta c) x)).
  set (g := torch_tanh_m (smulm (beta c) S)).
  set (psi := torch_tanh_m (smulm (beta c) P)).
  run_read_vec "x" lx x.
  run_read_mat "S" lS S.
  run_read_vec "h" (length (heap s)) h.
  erewrite bind_Ok
    by (eapply (iadd_vec_whole "x" lx x); [env_lookup|heap_lookup]).
  cbn [heap env].
  run_read_mat "S" lS S.
  run_read_vec "h" (length (heap s)) h.
  run_read_mat "psi" (length ((heap s ++ [OVec h]) ++ [OMat g])) psi.
  erewrite bind_Ok
    by (eapply (iadd_mat_whole "S" lS S); [env_lookup|heap_lookup]).
  cbn [heap env].
  run_read_mat "P" lP P.
  erewrite bind_Ok by (apply lift_Ok, py_div_Ok, HN).
  run_read_mat "etas" le etas.
  run_read_mat "psi" (length ((heap s ++ [OVec h]) ++ [OMat g])) psi.
  run_read_mat "g" (length (heap s ++ [OVec h])) g.
  erewrite (iadd_mat_whole "P" lP P); [done|env_lookup|heap_lookup].
Qed.

(** ** The store after the initial conditions *)

Lemma runnable_N3 c : (0 < N c)%Z -> IZR (N c ^ 3) <> 0.
Proof.
  intros HN. apply not_0_IZR.
  assert (0 < N c ^ 3)%Z by (apply Z.pow_pos_nonneg; lia). lia.
Qed.

Lemma etas_rhs_Ok c d :
  (0 <= N c)%Z -> (0 <= K c)%Z ->
  etas_rhs (N c) (K c) (randint_draw d) = Ok (etas_of c d).
Proof.
  intros HN HK. unfold etas_rhs.
  destruct (Z.ltb_spec (N c) 0); [lia|].
  destruct (Z.ltb_spec (K c) 0); [lia|]. done.
Qed.

Lemma generate_corruption_vector_Ok c d :
  (0 <= N c)%Z ->
  generate_corruption_vector (N c) (corruption_level c) (rand_draw d)
  = Ok (corruption_vector_of c d).
Proof.
  intros HN. unfold generate_corruption_vector.
  destruct (Z.ltb_spec (N c) 0); [lia|]. done.
Qed.

Lemma select_column_Ok x l M idx s :
  env s !! x = Some (Whole l) -> heap s !! l = Some (OMat M) ->
  (- Z.of_nat (ncols M) <= idx < Z.of_nat (ncols M))%Z ->
  select_column x idx s =
  Ok (Column l (if (0 <=? idx)%Z then Z.to_nat idx
                else Z.to_nat (idx + Z.of_nat (ncols M))), s).
Proof.
  intros He Hh Hidx. unfold select_column.
  rewrite (bind_Ok _ _ s (Whole l) s) by (unfold lookup_name; by rewrite He).
  rewrite (bind_Ok _ _ s M s) by by apply (read_mat_whole x l).
  destruct (Z.leb_spec 0 idx); simpl.
  - destruct (Z.ltb_spec idx (Z.of_nat (ncols M))); [done|lia].
  - destruct (Z.leb_spec (- Z.of_nat (ncols M)) idx); [|lia].
    destruct (Z.ltb_spec idx 0); [done|lia].
Qed.


Lemma assign_Ok x b s :
  assign x b s = Ok (tt, mkStore (heap s) (<[x := b]> (env s))).
Proof. done. Qed.

Ltac norm_store := cbn [heap env app length].

Lemma setup_exec c d :
  runnable c -> setup c d fresh_kernel = Ok (tt, after_setup c d).
Proof.
  intros (HN & Hidx & Hb).
  assert (HK : Z.of_nat (ncols (etas_of c d)) = K c) by (simpl; lia).
  unfold setup, fresh_kernel.
  erewrite bind_Ok by (apply lift_Ok, etas_rhs_Ok; lia).
  run_let_new. norm_store.
  erewrite bind_Ok
    by (eapply (select_column_Ok "etas" 0%nat (etas_of c d));
        [env_lookup|done|rewrite HK; lia]).
  rewrite HK. fold (col_of c).
  erewrite bind_Ok by apply assign_Ok. norm_store.
  erewrite bind_Ok
    by (eapply (read_vec_column "mem" 0%nat (col_of c) (etas_of c d));
        [env_lookup|done]).
  fold (mem_of c d).
  erewrite bind_Ok by (apply lift_Ok, generate_corruption_vector_Ok; lia).
  fold (x0_of c d).
  run_let_new. norm_store.
  run_read_vec "x0" 1%nat (x0_of c d). fold (psi_0_of c d).
  run_let_new. norm_store.
  erewrite bind_Ok by (apply lift_Ok, py_div_Ok, Hb).
  run_read_mat "psi_0" 2%nat (psi_0_of c d). fold (P0_of c d).
  run_let_new. norm_store.
  erewrite bind_Ok by (apply lift_Ok, py_div_Ok, Hb).
  erewrite bind_Ok by (apply lift_Ok, py_div_Ok, runnable_N3, HN).
  run_read_mat "etas" 0%nat (etas_of c d).
  run_read_mat "psi_0" 2%nat (psi_0_of c d). fold (S0_of c d).
  run_let_new. norm_store.
  erewrite bind_Ok
    by (eapply (clone_whole "x0" 1%nat (OVec (x0_of c d))); [env_lookup|done]).
  norm_store.
  erewrite bind_Ok
    by (eapply (clone_whole "S0" 4%nat (OMat (S0_of c d))); [env_lookup|done]).
  norm_store.
  erewrite bind_Ok
    by (eapply (clone_whole "P0" 3%nat (OMat (P0_of c d))); [env_lookup|done]).
  norm_store.
  erewrite bind_Ok by apply assign_Ok. norm_store.
  erewrite bind_Ok by apply assign_Ok. norm_store.
  rewrite assign_Ok. done.
Qed.

(** ** The loop invariant *)

Lemma loop_inv_after_setup c d :
  loop_inv c d (x0_of c d, S0_of c d, P0_of c d) (after_setup c d).
Proof.
  split; [by exists []|]. unfold after_setup. cbn [env].
  repeat split; by simplify_map_eq.
Qed.

Lemma loop_body_inv c d st s :
  (0 < N c)%Z -> loop_inv c d st s ->
  exists s', loop_body c s = Ok (tt, s') /\ loop_inv c d (step_of c d st) s' /\
             (exists lh h, env s' !! "h" = Some (Whole lh) /\
                           heap s' !! lh = Some (OVec h) /\
                           h = torch_tanh_v (smulv (beta c) (fst (fst st)))).
Proof.
  intros HN ([tail Hh] & Ee & Em & Ex0 & Epsi & EP0 & ES0 & Ex & ES & EP).
  destruct st as [[x S] P]. cbn [fst snd] in Hh.
  eexists. split; [|split].
  - eapply (loop_body_exec c s 5 6 7 0 x S P (etas_of c d));
      try done; try lia; try (by rewrite Hh); by apply runnable_N3.
  - unfold after_loop_body, loop_inv. cbn [heap env].
    split; [|repeat split; by simplify_map_eq].
    rewrite Hh. rewrite <- !app_assoc. cbn [app].
    eexists. reflexivity.
  - unfold after_loop_body. cbn [heap env fst snd].
    eexists _, _. split; [by simplify_map_eq|]. split; [|done].
    assert (8 <= length (heap s))%nat by (rewrite Hh; simpl; lia).
    heap_lookup.
Qed.

Lemma euler_iter_S n dt beta q etas st :
  euler_iter (S n) dt beta q etas st =
  euler_step dt beta q etas (euler_iter n dt beta q etas st).
Proof.
  revert st. induction n as [|n IH]; intros st; [done|].
  change (euler_iter (S (S n)) dt beta q etas st)
    with (euler_iter (S n) dt beta q etas (euler_step dt beta q etas st)).
  rewrite IH. done.
Qed.

Lemma integrate_inv c d n : forall st s,
  (0 < N c)%Z -> loop_inv c d st s ->
  exists s', integrate c n s = Ok (tt, s') /\
             loop_inv c d
               (euler_iter n (dt c) (beta c) (1 / IZR (N c ^ 3)) (etas_of c d) st)
               s' /\
             (h_bound s \/ (0 < n)%nat -> h_bound s').
Proof.
  induction n as [|n IH]; intros st s HN Hinv.
  - exists s. split; [done|]. split; [done|]. intros [H|H]; [done|lia].
  - destruct (loop_body_inv c d st s HN Hinv)
      as (s1 & Hrun & Hinv1 & lh & h & Hh1 & Hh2 & _).
    destruct (IH _ s1 HN Hinv1) as (s2 & Hrun2 & Hinv2 & Hb).
    exists s2. split; [|split; [done|]].
    + unfold integrate. cbn [for_range]. erewrite bind_Ok by exact Hrun.
      exact Hrun2.
    + intros _. apply Hb. left. by exists lh, h.
Qed.

Lemma simulation_steps_exec c d n :
  runnable c ->
  exists s, (setup c d ;;; integrate c n) fresh_kernel = Ok (tt, s) /\
            loop_inv c d (state_after c d n) s /\
            ((0 < n)%nat -> h_bound s).
Proof.
  intros Hr.
  destruct (integrate_inv c d n _ _ (proj1 Hr) (loop_inv_after_setup c d))
    as (s & Hrun & Hinv & Hb).
  exists s. split; [|split; [done|]].
  - erewrite bind_Ok by (by apply setup_exec). done.
  - intros Hn. apply Hb. by right.
Qed.

(** ** The saturating nonlinearity and its inverse *)

Lemma cosh_pos x : 0 < cosh x.
Proof.
  unfold cosh. pose proof (exp_pos x). pose proof (exp_pos (- x)). lra.
Qed.

Lemma tanh_bounds x : -1 < tanh x < 1.
Proof.
  pose proof (cosh_pos x) as Hc.
  pose proof (exp_pos x) as Hp. pose proof (exp_pos (- x)) as Hm.
  assert (Hs : - cosh x < sinh x < cosh x) by (unfold sinh, cosh in *; lra).
  unfold tanh. split.
  - apply (Rmult_lt_reg_r (cosh x)); [done|].
    unfold Rdiv. rewrite Rmult_assoc, Rinv_l by lra. lra.
  - apply (Rmult_lt_reg_r (cosh x)); [done|].
    unfold Rdiv. rewrite Rmult_assoc, Rinv_l by lra. lra.
Qed.

Lemma tanh_opp x : tanh (- x) = - tanh x.
Proof.
  pose proof (cosh_pos x) as Hc.
  unfold tanh.
  replace (sinh (- x)) with (- sinh x)
    by (unfold sinh; rewrite Ropp_involutive; lra).
  replace (cosh (- x)) with (cosh x)
    by (unfold cosh; rewrite Ropp_involutive; lra).
  field. lra.
Qed.

Lemma tanh_pos x : 0 < x -> 0 < tanh x.
Proof.
  intros Hx. pose proof (cosh_pos x) as Hc.
  assert (Hs : 0 < sinh x).
  { unfold sinh. assert (exp (- x) < exp x) by (apply exp_increasing; lra). lra. }
  unfold tanh. apply Rdiv_lt_0_compat; done.
Qed.

(** [tanh z = (e^{2z} - 1) / (e^{2z} + 1)]. *)
Lemma tanh_exp2 z : tanh z = (exp (2 * z) - 1) / (exp (2 * z) + 1).
Proof.
  pose proof (exp_pos z) as Hp.
  unfold tanh, sinh, cosh.
  replace (2 * z) with (z + z) by lra.
  rewrite exp_plus, exp_Ropp. field. split; nra.
Qed.

Lemma tanh_atanh y : -1 < y < 1 -> tanh (atanh y) = y.
Proof.
  intros Hy. rewrite tanh_exp2. unfold atanh.
  replace (2 * (ln ((1 + y) / (1 - y)) / 2)) with (ln ((1 + y) / (1 - y))) by lra.
  rewrite exp_ln by (apply Rdiv_lt_0_compat; lra).
  field. lra.
Qed.

(** ** Entries and shapes of the tensor operations *)

Lemma mget_smulm a M i j :
  (i < nrows M)%nat -> (j < ncols M)%nat ->
  mget (smulm a M) i j = a * mget M i j.
Proof. intros. unfold smulm. by rewrite mget_mtab. Qed.

Lemma mget_mneg M i j :
  (i < nrows M)%nat -> (j < ncols M)%nat -> mget (mneg M) i j = - mget M i j.
Proof. intros. unfold mneg. by rewrite mget_mtab. Qed.

Lemma mget_madd A B i j :
  (i < nrows A)%nat -> (j < ncols A)%nat ->
  mget (madd A B) i j = mget A i j + mget B i j.
Proof. intros. unfold madd. by rewrite mget_mtab. Qed.

Lemma mget_mmap f M i j :
  (i < nrows M)%nat -> (j < ncols M)%nat -> mget (mmap f M) i j = f (mget M i j).
Proof. intros. unfold mmap. by rewrite mget_mtab. Qed.

Lemma mget_outer u v i j :
  (i < length u)%nat -> (j < length v)%nat ->
  mget (outer u v) i j = vget u i * vget v j.
Proof. intros. unfold outer. by rewrite mget_mtab. Qed.

Lemma length_vmap f v : length (vmap f v) = length v.
Proof. apply length_vtab. Qed.

Lemma length_smulv a v : length (smulv a v) = length v.
Proof. apply length_vtab. Qed.

Lemma length_vadd u v : length (vadd u v) = length u.
Proof. apply length_vtab. Qed.

Lemma length_column M k : length (column M k) = nrows M.
Proof. apply length_vtab. Qed.

Lemma vget_vmap f v i : (i < length v)%nat -> vget (vmap f v) i = f (vget v i).
Proof. intros. unfold vmap. by rewrite vget_vtab. Qed.

Lemma vget_smulv a v i : (i < length v)%nat -> vget (smulv a v) i = a * vget v i.
Proof. intros. unfold smulv. by rewrite vget_vtab. Qed.

Lemma sym_n_symmetric n M : sym_n n M -> symmetric M.
Proof. intros (Hr & Hc & H). split; [congruence|]. rewrite Hr. done. Qed.

Lemma sym_n_mtab n f :
  (forall i j, (i < n)%nat -> (j < n)%nat -> f i j = f j i) -> sym_n n (mtab n n f).
Proof.
  intros H. repeat split. intros i j Hi Hj. rewrite !mget_mtab by done. by apply H.
Qed.

Lemma sym_n_smulm n a M : sym_n n M -> sym_n n (smulm a M).
Proof.
  intros (Hr & Hc & H). unfold smulm. rewrite Hr, Hc.
  apply sym_n_mtab. intros i j Hi Hj. by rewrite H.
Qed.

Lemma sym_n_mneg n M : sym_n n M -> sym_n n (mneg M).
Proof.
  intros (Hr & Hc & H). unfold mneg. rewrite Hr, Hc.
  apply sym_n_mtab. intros i j Hi Hj. by rewrite H.
Qed.

Lemma sym_n_mmap n f M : sym_n n M -> sym_n n (mmap f M).
Proof.
  intros (Hr & Hc & H). unfold mmap. rewrite Hr, Hc.
  apply sym_n_mtab. intros i j Hi Hj. by rewrite H.
Qed.

Lemma sym_n_madd n A B : sym_n n A -> sym_n n B -> sym_n n (madd A B).
Proof.
  intros (Hr & Hc & HA) (_ & _ & HB). unfold madd. rewrite Hr, Hc.
  apply sym_n_mtab. intros i j Hi Hj. by rewrite HA, HB.
Qed.

Lemma sym_n_outer h : sym_n (length h) (outer h h).
Proof. unfold outer. apply sym_n_mtab. intros i j _ _. lra. Qed.

(** The contraction is symmetric in its two free indices whatever the
    contracted matrix is. *)
Lemma sym_n_einsum etas psi :
  sym_n (nrows etas) (einsum_im_jm_km_lm_kl etas etas etas etas psi).
Proof.
  unfold einsum_im_jm_km_lm_kl. apply sym_n_mtab. intros i j _ _.
  apply rsum_ext. intros m _. apply rsum_ext. intros k _.
  apply rsum_ext. intros l _. lra.
Qed.

(** One Euler step keeps the vector length and the symmetry of both matrices. *)
Lemma euler_step_sym n dt beta q etas x S P :
  length x = n -> nrows etas = n -> sym_n n S -> sym_n n P ->
  let st := euler_step dt beta q etas (x, S, P) in
  length (fst (fst st)) = n /\ sym_n n (snd (fst st)) /\ sym_n n (snd st).
Proof.
  intros Hx He HS HP. cbn [euler_step fst snd]. split; [|split].
  - by rewrite length_vadd.
  - apply sym_n_madd; [done|]. apply sym_n_smulm.
    apply sym_n_madd; [apply sym_n_madd|].
    + by apply sym_n_mneg.
    + rewrite <- Hx at 1.
      replace (length x) with (length (torch_tanh_v (smulv beta x)))
        by (unfold torch_tanh_v; by rewrite length_vmap, length_smulv).
      apply sym_n_outer.
    + by apply sym_n_mmap, sym_n_smulm.
  - apply sym_n_madd; [done|]. apply sym_n_smulm.
    apply sym_n_madd; [apply sym_n_madd|].
    + by apply sym_n_mneg.
    + apply sym_n_smulm. rewrite <- He. apply sym_n_einsum.
    + by apply sym_n_mmap, sym_n_smulm.
Qed.

Lemma length_x0_of c d : length (x0_of c d) = Z.to_nat (N c).
Proof.
  unfold x0_of, x0_rhs, vmul. rewrite length_vtab.
  unfold mem_of. by rewrite length_column.
Qed.

Lemma psi_0_sym c d : sym_n (Z.to_nat (N c)) (psi_0_of c d).
Proof.
  unfold psi_0_of, psi_0_rhs. apply sym_n_mneg.
  rewrite <- (length_x0_of c d).
  replace (length (x0_of c d))
    with (length (torch_tanh_v (smulv (beta c) (x0_of c d))))
    by (unfold torch_tanh_v; by rewrite length_vmap, length_smulv).
  apply sym_n_outer.
Qed.

Lemma P0_sym c d : sym_n (Z.to_nat (N c)) (P0_of c d).
Proof. unfold P0_of, P0_rhs. apply sym_n_smulm, sym_n_mmap, psi_0_sym. Qed.

Lemma S0_sym c d : sym_n (Z.to_nat (N c)) (S0_of c d).
Proof.
  unfold S0_of, S0_rhs. apply sym_n_smulm, sym_n_mmap, sym_n_smulm.
  apply (sym_n_einsum (etas_of c d)).
Qed.

Lemma state_after_sym c d n :
  let st := state_after c d n in
  length (fst (fst st)) = Z.to_nat (N c) /\
  sym_n (Z.to_nat (N c)) (snd (fst st)) /\ sym_n (Z.to_nat (N c)) (snd st).
Proof.
  induction n as [|n IH].
  - cbn. split; [apply length_x0_of|]. split; [apply S0_sym|apply P0_sym].
  - cbn zeta in *. unfold state_after in *. rewrite euler_iter_S.
    destruct (euler_iter n _ _ _ _ _) as [[x S] P].
    cbn [fst snd] in IH. destruct IH as (Hx & HS & HP).
    by apply euler_step_sym.
Qed.

(** ** The operations on small tensors *)

Example matvec_2x2 :
  matvec (mkMat 2 2 [[1; 2]; [3; 4]]) [1; -1] = [-1; -1].
Proof.
  unfold matvec, vtab, tabulate, mget, vget. simpl.
  f_equal; [lra|f_equal; lra].
Qed.

Example outer_2 : outer [1; -1] [1; -1] = mkMat 2 2 [[1; -1]; [-1; 1]].
Proof.
  unfold outer, mtab, tabulate, vget. simpl. f_equal.
  f_equal; [f_equal; [lra|f_equal; lra]|f_equal; f_equal; [lra|f_equal; lra]].
Qed.

(** Entry (0,1) of the contraction for one memory (1,-1) and
    [psi = [[0,1],[1,0]]]: [e0 e1 (e0 e1 psi01 + e1 e0 psi10) = 2]. *)
Example einsum_entry_0_1 :
  mget (einsum_im_jm_km_lm_kl
          (mkMat 2 1 [[1]; [-1]]) (mkMat 2 1 [[1]; [-1]])
          (mkMat 2 1 [[1]; [-1]]) (mkMat 2 1 [[1]; [-1]])
          (mkMat 2 2 [[0; 1]; [1; 0]])) 0 1 = 2.
Proof.
  unfold mget at 1. unfold einsum_im_jm_km_lm_kl, mtab, tabulate. simpl.
  unfold mget. simpl. lra.
Qed.

Example column_of_view :
  column (mkMat 2 2 [[1; 2]; [3; 4]]) 1 = [2; 4].
Proof. reflexivity. Qed.

Example sign_values : sign (-3) = -1 /\ sign 0 = 0 /\ sign 2 = 1.
Proof.
  unfold sign. repeat split.
  - destruct (Rlt_dec (-3) 0); [done|lra].
  - destruct (Rlt_dec 0 0); [lra|done].
  - destruct (Rlt_dec 2 0); [lra|]. destruct (Rlt_dec 0 2); [done|lra].
Qed.

(** Draws 0, 0.4, 0.8 against corruption 0.5: the threshold is 0.5. *)
Example corruption_vector_half :
  generate_corruption_vector 3 (1 / 2) (fun i => INR i * (4 / 10))
  = Ok [1%Z; 1%Z; (-1)%Z].
Proof.
  unfold generate_corruption_vector, tabulate. simpl.
  destruct (Rle_dec (0 * (4 / 10)) (1 - 1 / 2)); [|lra].
  destruct (Rle_dec (1 * (4 / 10)) (1 - 1 / 2)); [|lra].
  destruct (Rle_dec ((1 + 1) * (4 / 10)) (1 - 1 / 2)); [lra|]. done.
Qed.

(** An in-place write through a column view lands in the matrix. *)
Example write_through_view :
  write (Column 0 1) (OVec [7; 8])
        (mkStore [OMat (mkMat 2 2 [[1; 2]; [3; 4]])] ∅)
  = Ok (tt, mkStore [OMat (mkMat 2 2 [[1; 7]; [3; 8]])] ∅).
Proof. reflexivity. Qed.

(** An unbound name, and a division by zero. *)
Example unbound_name : read_vec "h" fresh_kernel = Raise NameError.
Proof. reflexivity. Qed.

Example division_by_zero : py_div 1 (IZR (0 ^ 3)) = Raise ZeroDivisionError.
Proof. apply py_div_zero. Qed.

(** ** What the names denote during the loop *)

Lemma loop_inv_values c d st s :
  loop_inv c d st s ->
  value_of s "etas" = Some (OMat (etas_of c d)) /\
  value_of s "mem" = Some (OVec (mem_of c d)) /\
  value_of s "x0" = Some (OVec (x0_of c d)) /\
  value_of s "psi_0" = Some (OMat (psi_0_of c d)) /\
  value_of s "P0" = Some (OMat (P0_of c d)) /\
  value_of s "S0" = Some (OMat (S0_of c d)) /\
  value_of s "x" = Some (OVec (fst (fst st))) /\
  value_of s "S" = Some (OMat (snd (fst st))) /\
  value_of s "P" = Some (OMat (snd st)).
Proof.
  intros ([tail Hh] & Ee & Em & Ex0 & Epsi & EP0 & ES0 & Ex & ES & EP).
  unfold value_of.
  rewrite Ee, Em, Ex0, Epsi, EP0, ES0, Ex, ES, EP, Hh. done.
Qed.

Lemma initial_distance_exec c d st s :
  loop_inv c d st s ->
  initial_distance s =
  Ok (torch_norm (vsub (torch_sign (x0_of c d)) (mem_of c d)), s).
Proof.
  intros ([tail Hh] & Ee & Em & Ex0 & _).
  unfold initial_distance.
  erewrite bind_Ok
    by (eapply (read_vec_whole "x0" 1%nat (x0_of c d)); [done|by rewrite Hh]).
  erewrite bind_Ok
    by (eapply (read_vec_column "mem" 0%nat (col_of c) (etas_of c d));
        [done|by rewrite Hh]).
  done.
Qed.

Lemma run_Ok {A} (m : Py A) a s : m fresh_kernel = Ok (a, s) -> run m = Ok s.
Proof. unfold run. by intros ->. Qed.

Lemma run_Raise {A} (m : Py A) e : m fresh_kernel = Raise e -> run m = Raise e.
Proof. unfold run. by intros ->. Qed.

Lemma N3_nonzero n : n <> 0%Z -> IZR (n ^ 3) <> 0.
Proof. intros Hn. apply not_0_IZR, Z.pow_nonzero; [done|lia]. Qed.

(** ** Contraction: direct summation against the factorized form *)

Lemma einsum_entry_naive etas psi i j :
  rsum (ncols etas) (fun m =>
    rsum (nrows etas) (fun k =>
      rsum (nrows etas) (fun l =>
        mget etas i m * mget etas j m * mget etas k m * mget etas l m
        * mget psi k l))) =
  rsum (nrows etas) (fun k =>
    rsum (nrows etas) (fun l =>
      mget psi k l *
      rsum (ncols etas) (fun m =>
        mget etas i m * mget etas j m * mget etas k m * mget etas l m))).
Proof.
  rewrite rsum_exchange. apply rsum_ext. intros k _.
  rewrite rsum_exchange. apply rsum_ext. intros l _.
  rewrite <- rsum_scal_l. apply rsum_ext. intros m _. lra.
Qed.

Lemma einsum_entry_factorized etas psi i j :
  rsum (ncols etas) (fun m =>
    rsum (nrows etas) (fun k =>
      rsum (nrows etas) (fun l =>
        mget etas i m * mget etas j m * mget etas k m * mget etas l m
        * mget psi k l))) =
  rsum (ncols etas) (fun m => mget etas i m * mget etas j m * v_m etas psi m).
Proof.
  apply rsum_ext. intros m _. unfold v_m.
  rewrite <- rsum_scal_l. apply rsum_ext. intros k _.
  rewrite <- rsum_scal_l. apply rsum_ext. intros l _. lra.
Qed.

(** * The claims *)

(** ** C1: one iteration is an explicit Euler step on the pre-update snapshot *)

(** C1. For every store in which [x], [S], [P] name three distinct tensor
    objects holding the pre-update state (of matching shapes), with [etas]
    a further object and [N <> 0], one iteration of the loop body succeeds,
    binds [h = tanh(beta*x)], [g = tanh(beta*S)], [psi = tanh(beta*P)]
    computed from that state, and leaves in [x], [S], [P] exactly
    [x + dt*(-x + S@h)], [S + dt*(-S + outer(h,h) + psi)] and
    [P + dt*(-P + (1/N^3)*einsum(etas,psi) + g)], every right-hand side
    being taken at the pre-update [x], [S], [P], [h], [g], [psi]: the
    in-place update of [x] does not reach the update of [S] or [P], nor
    that of [S] the update of [P]. *)
Theorem loop_body_euler_snapshot
    (c : config) (s : store) (lx lS lP le n k : nat)
    (x : Vec) (S P etas : Mat) :
  env s !! "x" = Some (Whole lx) ->
  env s !! "S" = Some (Whole lS) ->
  env s !! "P" = Some (Whole lP) ->
  env s !! "etas" = Some (Whole le) ->
  heap s !! lx = Some (OVec x) ->
  heap s !! lS = Some (OMat S) ->
  heap s !! lP = Some (OMat P) ->
  heap s !! le = Some (OMat etas) ->
  lx <> lS -> lx <> lP -> lS <> lP -> le <> lx -> le <> lS ->
  length x = n -> has_shape S n n -> has_shape P n n -> has_shape etas n k ->
  N c <> 0%Z ->
  let h := torch_tanh_v (smulv (beta c) x) in
  let g := torch_tanh_m (smulm (beta c) S) in
  let psi := torch_tanh_m (smulm (beta c) P) in
  exists s',
    loop_body c s = Ok (tt, s') /\
    value_of s' "h" = Some (OVec h) /\
    value_of s' "g" = Some (OMat g) /\
    value_of s' "psi" = Some (OMat psi) /\
    value_of s' "x" =
      Some (OVec (vadd x (smulv (dt c) (vadd (vneg x) (matvec S h))))) /\
    value_of s' "S" =
      Some (OMat (madd S (smulm (dt c) (madd (madd (mneg S) (outer h h)) psi)))) /\
    value_of s' "P" =
      Some (OMat (madd P (smulm (dt c)
        (madd (madd (mneg P)
                 (smulm (1 / IZR (N c ^ 3))
                    (einsum_im_jm_km_lm_kl etas etas etas etas psi)))
              g)))).
Proof.
  intros Ex ES EP Ee Hx HS HP He n1 n2 n3 n4 n5 _ _ _ _ HN h g psi.
  pose proof (lookup_lt_Some _ _ _ Hx) as Lx.
  pose proof (lookup_lt_Some _ _ _ HS) as LS.
  pose proof (lookup_lt_Some _ _ _ HP) as LP.
  exists (after_loop_body c s lx lS lP x S P etas).
  split.
  { apply (loop_body_exec c s lx lS lP le); try done. by apply N3_nonzero. }
  unfold value_of, after_loop_body. cbn [heap env].
  repeat split; simplify_map_eq; cbn [deref]; heap_lookup.
Qed.

Lemma loop_body_euler_snapshot_witness :
  exists s',
    loop_body c1_config c1_store = Ok (tt, s') /\
    value_of s' "x" =
      Some (OVec (vadd [1] (smulv (1 / 2)
        (vadd (vneg [1])
           (matvec (mkMat 1 1 [[0]]) (torch_tanh_v (smulv 1 [1]))))))).
Proof.
  pose proof (loop_body_euler_snapshot c1_config c1_store 1 2 3 0 1 1
                [1] (mkMat 1 1 [[0]]) (mkMat 1 1 [[0]]) (mkMat 1 1 [[1]])
                eq_refl eq_refl eq_refl eq_refl eq_refl eq_refl eq_refl eq_refl
                ltac:(lia) ltac:(lia) ltac:(lia) ltac:(lia) ltac:(lia)
                eq_refl
                ltac:(repeat split; repeat constructor)
                ltac:(repeat split; repeat constructor)
                ltac:(repeat split; repeat constructor)
                ltac:(simpl; lia)) as H.
  cbv zeta in H. destruct H as (s' & Hrun & _ & _ & _ & Hx & _).
  exists s'. split; [exact Hrun|exact Hx].
Defined.

(** ** C2: the contraction and its factorization *)

(** C2. For every N x K matrix [etas] and N x N matrix [psi], the einsum
    ['im,jm,km,lm,kl->ij'] of the code equals the direct summation
    [sum_{k,l} psi[k,l] * (sum_m e[i,m] e[j,m] e[k,m] e[l,m])], and that
    equals the factorized form [sum_m e[i,m] e[j,m] v_m] with
    [v_m = h_m^T psi h_m]. *)
Theorem contraction_factorization (n k : nat) (etas psi : Mat) :
  has_shape etas n k -> has_shape psi n n ->
  einsum_im_jm_km_lm_kl etas etas etas etas psi = Contract_naive etas psi /\
  Contract_naive etas psi = Contract_factorized etas psi.
Proof.
  intros _ _. split.
  - apply mtab_ext. intros i j _ _. apply einsum_entry_naive.
  - apply mtab_ext. intros i j _ _.
    rewrite <- einsum_entry_naive. apply einsum_entry_factorized.
Qed.

Lemma contraction_factorization_witness :
  einsum_im_jm_km_lm_kl (mkMat 2 1 [[1]; [-1]]) (mkMat 2 1 [[1]; [-1]])
    (mkMat 2 1 [[1]; [-1]]) (mkMat 2 1 [[1]; [-1]]) (mkMat 2 2 [[0; 1]; [1; 0]])
  = Contract_factorized (mkMat 2 1 [[1]; [-1]]) (mkMat 2 2 [[0; 1]; [1; 0]]).
Proof.
  destruct (contraction_factorization 2 1 (mkMat 2 1 [[1]; [-1]])
              (mkMat 2 2 [[0; 1]; [1; 0]])
              ltac:(repeat split; repeat constructor)
              ltac:(repeat split; repeat constructor)) as [H1 H2].
  exact (eq_trans H1 H2).
Defined.

(** ** C3: the diagonal of psi_0 *)

Lemma psi_0_entry beta x0 i j :
  (i < length x0)%nat -> (j < length x0)%nat ->
  mget (psi_0_rhs beta x0) i j
  = - (tanh (beta * vget x0 i) * tanh (beta * vget x0 j)).
Proof.
  intros Hi Hj. unfold psi_0_rhs, torch_tanh_v.
  rewrite mget_mneg
    by (cbn [nrows ncols outer mtab]; by rewrite length_vmap, length_smulv).
  rewrite mget_outer by (by rewrite length_vmap, length_smulv).
  rewrite !vget_vmap by (by rewrite length_smulv).
  by rewrite !vget_smulv.
Qed.

Lemma P0_entry q beta x0 i j :
  (i < length x0)%nat -> (j < length x0)%nat ->
  mget (P0_rhs q (psi_0_rhs beta x0)) i j
  = q * atanh (mget (psi_0_rhs beta x0) i j).
Proof.
  intros Hi Hj. unfold P0_rhs, torch_atanh_m.
  assert (Hn : nrows (psi_0_rhs beta x0) = length x0).
  { unfold psi_0_rhs, torch_tanh_v. cbn [nrows mneg outer mtab].
    by rewrite length_vmap, length_smulv. }
  assert (Hk : ncols (psi_0_rhs beta x0) = length x0).
  { unfold psi_0_rhs, torch_tanh_v. cbn [nrows ncols mneg outer mtab].
    by rewrite length_vmap, length_smulv. }
  rewrite mget_smulm by (cbn [nrows ncols mmap mtab]; lia).
  rewrite mget_mmap by lia. done.
Qed.

(** Counterexample to C3 as stated: at the tutorial's gain [beta = 5] and a
    seed with entries in {-1,+1}, the diagonal entry of [psi_0] is strictly
    above -1. *)
Lemma psi_0_diagonal_counterexample :
  -1 < mget (psi_0_rhs 5 [1; -1]) 0 0.
Proof.
  rewrite psi_0_entry by (simpl; lia).
  pose proof (tanh_bounds (5 * vget [1; -1] 0)) as H. nra.
Qed.

Lemma psi_0_with_tanh : psi_0_with tanh = psi_0_rhs.
Proof. reflexivity. Qed.

Lemma psi_0_with_shape act beta x0 :
  nrows (psi_0_with act beta x0) = length x0 /\
  ncols (psi_0_with act beta x0) = length x0.
Proof.
  unfold psi_0_with. cbn [nrows ncols mneg outer mtab].
  by rewrite length_vmap, length_smulv.
Qed.

Lemma psi_0_with_entry act beta x0 i j :
  (i < length x0)%nat -> (j < length x0)%nat ->
  mget (psi_0_with act beta x0) i j
  = - (act (beta * vget x0 i) * act (beta * vget x0 j)).
Proof.
  intros Hi Hj. unfold psi_0_with.
  rewrite mget_mneg
    by (cbn [nrows ncols outer mtab]; by rewrite length_vmap, length_smulv).
  rewrite mget_outer by (by rewrite length_vmap, length_smulv).
  rewrite !vget_vmap by (by rewrite length_smulv).
  by rewrite !vget_smulv.
Qed.

Lemma P0_rhs_entry q M i j :
  (i < nrows M)%nat -> (j < ncols M)%nat ->
  mget (P0_rhs q M) i j = q * atanh (mget M i j).
Proof.
  intros Hi Hj. unfold P0_rhs, torch_atanh_m.
  rewrite mget_smulm by (cbn [nrows ncols mmap mtab]; lia).
  by rewrite mget_mmap.
Qed.

Lemma odd_pm act beta v :
  (forall z, act (- z) = - act z) -> v = 1 \/ v = -1 ->
  act (beta * v) = act beta \/ act (beta * v) = - act beta.
Proof.
  intros Hodd [-> | ->]; [left|right].
  - f_equal. lra.
  - rewrite <- Hodd. f_equal. lra.
Qed.

Lemma clip_odd z : clip (- z) = - clip z.
Proof.
  unfold clip.
  destruct (Rlt_dec (- z) (-1)), (Rlt_dec 1 (- z)), (Rlt_dec z (-1)),
    (Rlt_dec 1 z); lra.
Qed.

(** C3, amended. Let [act] be the activation as evaluated, any odd
    function (the real [tanh], or a [tanh] that saturates at 1), and [x0] a
    seed with entries in {-1,+1}, [beta > 0].  Each diagonal entry of
    [psi_0] equals [-act(beta)^2] and every entry, off the diagonal too,
    has the same absolute value [act(beta)^2].  Hence a diagonal entry is
    exactly -1 only if the activation has saturated, and then every
    off-diagonal entry is +-1 as well: no entry is strictly inside (-1,1).
    Where [act(beta)^2 < 1] (the tutorial's [beta = 5]), every entry of
    [psi_0], the diagonal included, lies strictly inside (-1,1), and the
    corresponding entry [p] of [P0 = (1/beta) * atanh(psi_0)] is the real
    number with [tanh(beta * p)] equal to it. *)
Theorem psi_0_diagonal_and_off_diagonal
    (act : R -> R) (beta : R) (x0 : Vec) (i j : nat) :
  (forall z, act (- z) = - act z) ->
  0 < beta ->
  (forall a, (a < length x0)%nat -> vget x0 a = 1 \/ vget x0 a = -1) ->
  (i < length x0)%nat -> (j < length x0)%nat ->
  mget (psi_0_with act beta x0) i i = - (act beta * act beta) /\
  Rabs (mget (psi_0_with act beta x0) i j) = act beta * act beta /\
  (mget (psi_0_with act beta x0) i i = -1 ->
     Rabs (mget (psi_0_with act beta x0) i j) = 1) /\
  (act beta * act beta < 1 ->
     -1 < mget (psi_0_with act beta x0) i i <= 0 /\
     -1 < mget (psi_0_with act beta x0) i j < 1 /\
     tanh (beta * mget (P0_rhs (1 / beta) (psi_0_with act beta x0)) i j)
     = mget (psi_0_with act beta x0) i j).
Proof.
  intros Hodd Hb Hpm Hi Hj.
  assert (Hsq : 0 <= act beta * act beta) by nra.
  assert (Habs : Rabs (mget (psi_0_with act beta x0) i j) = act beta * act beta).
  { rewrite psi_0_with_entry by done.
    destruct (odd_pm act beta _ Hodd (Hpm i Hi)) as [-> | ->];
      destruct (odd_pm act beta _ Hodd (Hpm j Hj)) as [-> | ->].
    - rewrite Rabs_Ropp. by apply Rabs_pos_eq.
    - replace (- (act beta * - act beta)) with (act beta * act beta) by lra.
      by apply Rabs_pos_eq.
    - replace (- (- act beta * act beta)) with (act beta * act beta) by lra.
      by apply Rabs_pos_eq.
    - replace (- (- act beta * - act beta)) with (- (act beta * act beta)) by lra.
      rewrite Rabs_Ropp. by apply Rabs_pos_eq. }
  assert (Hd : mget (psi_0_with act beta x0) i i = - (act beta * act beta)).
  { rewrite psi_0_with_entry by done.
    destruct (odd_pm act beta _ Hodd (Hpm i Hi)) as [-> | ->]; lra. }
  split; [done|]. split; [done|]. split.
  - intros H1. rewrite Habs. lra.
  - intros Hlt.
    assert (Hin : -1 < mget (psi_0_with act beta x0) i j < 1).
    { destruct (Rabs_def2 (mget (psi_0_with act beta x0) i j) 1) as [H1 H2]; lra. }
    split; [lra|]. split; [done|].
    destruct (psi_0_with_shape act beta x0) as [Hr Hc].
    rewrite P0_rhs_entry by lia.
    replace (beta * (1 / beta * atanh (mget (psi_0_with act beta x0) i j)))
      with (atanh (mget (psi_0_with act beta x0) i j)) by (field; lra).
    by apply tanh_atanh.
Qed.

(** At a saturated activation the diagonal is -1 and so, in absolute
    value, is the rest. *)
Lemma psi_0_diagonal_and_off_diagonal_witness :
  mget (psi_0_with clip 5 [1; -1]) 1 1 = -1 /\
  Rabs (mget (psi_0_with clip 5 [1; -1]) 1 0) = 1.
Proof.
  assert (Hc : clip 5 = 1).
  { unfold clip. destruct (Rlt_dec 5 (-1)); [lra|].
    destruct (Rlt_dec 1 5); [done|lra]. }
  destruct (psi_0_diagonal_and_off_diagonal clip 5 [1; -1] 1 0)
    as (Hd & Ho & _).
  - exact clip_odd.
  - lra.
  - intros a Ha. simpl in Ha.
    destruct a as [|[|a]]; [left|right|lia]; reflexivity.
  - simpl; lia.
  - simpl; lia.
  - rewrite Hd, Ho, Hc. split; lra.
Defined.

(** ** C4: the corruption vector *)

(** Counterexample to C4 as stated: with [corruption = 1] a draw equal to 0,
    which [torch.rand] can return, passes the test [u <= 1 - corruption] and
    the entry is +1. *)
Lemma corruption_one_counterexample :
  0 <= 0 < 1 /\ generate_corruption_vector 1 1 (fun _ => 0) = Ok [1%Z].
Proof.
  split; [lra|]. unfold generate_corruption_vector. simpl.
  destruct (Rle_dec 0 (1 - 1)) as [_|Hn]; [done|]. exfalso. lra.
Qed.

Lemma generate_corruption_vector_rnd_exact len corruption rand :
  generate_corruption_vector_rnd (fun x => x) len corruption rand
  = generate_corruption_vector len corruption rand.
Proof. reflexivity. Qed.

Lemma coarse_rounding_monotone a b :
  a <= b -> coarse_rounding a <= coarse_rounding b.
Proof.
  intros Hab. unfold coarse_rounding.
  destruct (Rle_dec a (1 / 2)), (Rle_dec a (3 / 4)), (Rle_dec b (1 / 2)),
    (Rle_dec b (3 / 4)); lra.
Qed.

(** C4, amended. Let [rnd] be the rounding the threshold [1 - corruption]
    undergoes when it is compared with the float32 draws: monotone, leaving
    0, 1 and the draws themselves in place.  For every length [>= 0], every
    corruption in [0,1] and draws in [0,1), the function returns a vector of
    that length whose entry is +1 where the draw is [<= rnd(1 - corruption)]
    and -1 elsewhere; so every draw [<= 1 - corruption] gives +1 (a draw
    above [1 - corruption] gives -1 only if it is also above the rounded
    threshold).  With [corruption = 0] the vector is all +1 and
    [x0 = mem * vector] is [mem] itself; with [corruption = 1] an entry is
    -1 exactly where its draw is positive, and +1 where the draw is 0. *)
Theorem generate_corruption_vector_rounded_spec
    (rnd : R -> R) (len : Z) (corruption : R) (rand : nat -> R) :
  (forall a b, a <= b -> rnd a <= rnd b) ->
  rnd 0 = 0 -> rnd 1 = 1 ->
  (forall i, rnd (rand i) = rand i) ->
  (0 <= len)%Z -> 0 <= corruption <= 1 ->
  (forall i, 0 <= rand i < 1) ->
  exists v,
    generate_corruption_vector_rnd rnd len corruption rand = Ok v /\
    length v = Z.to_nat len /\
    (forall i, (i < Z.to_nat len)%nat ->
       (rand i <= rnd (1 - corruption) -> nth i v 0%Z = 1%Z) /\
       (rnd (1 - corruption) < rand i -> nth i v 0%Z = (-1)%Z) /\
       (rand i <= 1 - corruption -> nth i v 0%Z = 1%Z)) /\
    (corruption = 0 ->
       (forall i, (i < Z.to_nat len)%nat -> nth i v 0%Z = 1%Z) /\
       (forall mem, length mem = Z.to_nat len -> x0_rhs mem v = mem)) /\
    (corruption = 1 ->
       forall i, (i < Z.to_nat len)%nat ->
         (0 < rand i -> nth i v 0%Z = (-1)%Z) /\
         (rand i = 0 -> nth i v 0%Z = 1%Z)).
Proof.
  intros Hmono H0 H1 Hfix Hlen Hc Hu.
  set (pick := fun u : R =>
                 if Rle_dec u (rnd (1 - corruption)) then 1%Z else (-1)%Z).
  exists (map pick (tabulate (Z.to_nat len) rand)).
  assert (Hnth : forall i, (i < Z.to_nat len)%nat ->
            nth i (map pick (tabulate (Z.to_nat len) rand)) 0%Z = pick (rand i)).
  { intros i Hi.
    rewrite (nth_indep _ 0%Z (pick 0)) by (by rewrite length_map, length_tabulate).
    rewrite (map_nth pick). by rewrite nth_tabulate. }
  split; [|split; [|split; [|split]]].
  - unfold generate_corruption_vector_rnd.
    destruct (Z.ltb_spec len 0); [lia|]. done.
  - by rewrite length_map, length_tabulate.
  - intros i Hi. rewrite Hnth by done. unfold pick.
    destruct (Rle_dec (rand i) (rnd (1 - corruption))) as [Hle|Hgt].
    + split; [done|]. split; [lra|done].
    + split; [done|]. split; [done|].
      intros Hreal. exfalso. apply Hgt.
      rewrite <- (Hfix i). by apply Hmono.
  - intros ->.
    assert (Hone : forall i, (i < Z.to_nat len)%nat ->
              nth i (map pick (tabulate (Z.to_nat len) rand)) 0%Z = 1%Z).
    { intros i Hi. rewrite Hnth by done. unfold pick.
      replace (1 - 0) with 1 by lra. rewrite H1.
      destruct (Rle_dec (rand i) 1) as [_|Hn]; [done|].
      exfalso. pose proof (Hu i). lra. }
    split; [done|].
    intros mem Hm. unfold x0_rhs, vmul.
    transitivity (vtab (length mem) (vget mem)); [|apply tabulate_nth].
    apply vtab_ext.
    intros i Hi. unfold to_float, vget at 2.
    rewrite (map_nth IZR _ 0%Z i), Hone by lia. lra.
  - intros -> i Hi. rewrite Hnth by done. unfold pick.
    replace (1 - 1) with 0 by lra. rewrite H0.
    destruct (Rle_dec (rand i) 0); split; intros; try done; lra.
Qed.

(** With the threshold 0.6 rounded up to 0.75, the draw 0.75 gives +1
    although it is above [1 - corruption]. *)
Lemma generate_corruption_vector_rounded_spec_witness :
  exists v,
    generate_corruption_vector_rnd coarse_rounding 2 (4 / 10) coarse_draws = Ok v /\
    nth 0 v 0%Z = 1%Z /\ nth 1 v 0%Z = 1%Z.
Proof.
  assert (Hr : coarse_rounding (1 - 4 / 10) = 3 / 4).
  { unfold coarse_rounding. destruct (Rle_dec (1 - 4 / 10) (1 / 2)); [lra|].
    destruct (Rle_dec (1 - 4 / 10) (3 / 4)); [done|lra]. }
  destruct (generate_corruption_vector_rounded_spec
              coarse_rounding 2 (4 / 10) coarse_draws)
    as (v & Hv & _ & Hrule & _).
  - exact coarse_rounding_monotone.
  - unfold coarse_rounding. destruct (Rle_dec 0 (1 / 2)); [done|lra].
  - unfold coarse_rounding. destruct (Rle_dec 1 (1 / 2)); [lra|].
    destruct (Rle_dec 1 (3 / 4)); [lra|done].
  - intros i. unfold coarse_draws, coarse_rounding. destruct (Nat.eqb i 0).
    + destruct (Rle_dec (3 / 4) (1 / 2)); [lra|].
      destruct (Rle_dec (3 / 4) (3 / 4)); [done|lra].
    + destruct (Rle_dec 0 (1 / 2)); [done|lra].
  - lia.
  - lra.
  - intros i. unfold coarse_draws. destruct (Nat.eqb i 0); lra.
  - exists v. split; [exact Hv|]. split.
    + destruct (Hrule 0%nat) as [Hup _]; [simpl; lia|].
      apply Hup. rewrite Hr. unfold coarse_draws. simpl. lra.
    + destruct (Hrule 1%nat) as [Hup _]; [simpl; lia|].
      apply Hup. rewrite Hr. unfold coarse_draws. simpl. lra.
Defined.

(** ** C5: symmetry of S and P *)

Lemma has_shape_sym_n n M : has_shape M n n -> symmetric M -> sym_n n M.
Proof.
  intros (Hr & Hc & _) [_ H]. split; [done|]. split; [done|].
  rewrite Hr in H. done.
Qed.

Lemma c5_matrix_symmetric : symmetric c5_matrix.
Proof.
  split; [done|]. intros i j Hi Hj. simpl in Hi, Hj.
  destruct i as [|[|i]]; destruct j as [|[|j]]; try lia; reflexivity.
Qed.

(** C5. In exact arithmetic: (1) if [S] and [P] are symmetric n x n
    matrices, [h] a vector of length n and [etas] a matrix with n rows, the
    updated [S + dt*(-S + outer(h,h) + tanh(beta*P))] and
    [P + dt*(-P + q*einsum(etas, tanh(beta*P)) + tanh(beta*S))] are
    symmetric; (2) [S0] and [P0] of the initial-condition statements are
    symmetric; (3) after any number of iterations of the loop, run from a
    fresh kernel with a configuration the cell accepts, the tensors named
    [S] and [P] are symmetric. *)
Theorem symmetry_is_invariant
    (c : config) (d : draws) (steps n : nat)
    (dt' beta' q : R) (h : Vec) (S P etas : Mat) :
  runnable c ->
  length h = n -> nrows etas = n ->
  has_shape S n n -> has_shape P n n ->
  symmetric S -> symmetric P ->
  (symmetric
     (madd S (smulm dt'
        (madd (madd (mneg S) (outer h h)) (torch_tanh_m (smulm beta' P))))) /\
   symmetric
     (madd P (smulm dt'
        (madd (madd (mneg P)
                 (smulm q (einsum_im_jm_km_lm_kl etas etas etas etas
                             (torch_tanh_m (smulm beta' P)))))
              (torch_tanh_m (smulm beta' S)))))) /\
  (symmetric (S0_of c d) /\ symmetric (P0_of c d)) /\
  exists s Sn Pn,
    run (setup c d ;;; integrate c steps) = Ok s /\
    value_of s "S" = Some (OMat Sn) /\
    value_of s "P" = Some (OMat Pn) /\
    symmetric Sn /\ symmetric Pn.
Proof.
  intros Hr Hh He HSs HPs HS HP.
  pose proof (has_shape_sym_n _ _ HSs HS) as HS'.
  pose proof (has_shape_sym_n _ _ HPs HP) as HP'.
  split; [split|split; [split|]].
  - apply (sym_n_symmetric n). apply sym_n_madd; [done|]. apply sym_n_smulm.
    apply sym_n_madd; [apply sym_n_madd|].
    + by apply sym_n_mneg.
    + rewrite <- Hh. apply sym_n_outer.
    + by apply sym_n_mmap, sym_n_smulm.
  - apply (sym_n_symmetric n). apply sym_n_madd; [done|]. apply sym_n_smulm.
    apply sym_n_madd; [apply sym_n_madd|].
    + by apply sym_n_mneg.
    + apply sym_n_smulm. rewrite <- He. apply sym_n_einsum.
    + by apply sym_n_mmap, sym_n_smulm.
  - apply (sym_n_symmetric _ _ (S0_sym c d)).
  - apply (sym_n_symmetric _ _ (P0_sym c d)).
  - destruct (simulation_steps_exec c d steps Hr) as (s & Hrun & Hinv & _).
    destruct (loop_inv_values _ _ _ _ Hinv) as (_ & _ & _ & _ & _ & _ & _ & HvS & HvP).
    destruct (state_after_sym c d steps) as (_ & Hs1 & Hs2).
    exists s, (snd (fst (state_after c d steps))), (snd (state_after c d steps)).
    split; [apply (run_Ok _ tt), Hrun|].
    split; [done|]. split; [done|].
    split; [apply (sym_n_symmetric _ _ Hs1)|apply (sym_n_symmetric _ _ Hs2)].
Qed.

Lemma symmetry_is_invariant_witness :
  symmetric
    (madd c5_matrix (smulm (1 / 2)
       (madd (madd (mneg c5_matrix) (outer [1; -1] [1; -1]))
             (torch_tanh_m (smulm 1 c5_matrix))))) /\
  exists s Sn Pn,
    run (setup c5_config unit_draws ;;; integrate c5_config 3) = Ok s /\
    value_of s "S" = Some (OMat Sn) /\
    value_of s "P" = Some (OMat Pn) /\
    symmetric Sn /\ symmetric Pn.
Proof.
  destruct (symmetry_is_invariant c5_config unit_draws 3 2 (1 / 2) 1 (1 / 8)
              [1; -1] c5_matrix c5_matrix (mkMat 2 1 [[1]; [-1]]))
    as ((H1 & _) & _ & H3).
  - repeat split; simpl; try lia. lra.
  - reflexivity.
  - reflexivity.
  - repeat split; repeat constructor.
  - repeat split; repeat constructor.
  - exact c5_matrix_symmetric.
  - exact c5_matrix_symmetric.
  - split; [exact H1|exact H3].
Defined.

(** ** C6: no iteration, no update *)

Lemma runnable_small (steps : Z) : runnable (mkConfig 1 1 steps (1 / 2) 1 0 0).
Proof. repeat split; simpl; try lia. lra. Qed.

(** C6. With [NUM_STEPS = 0] the cell, run from a fresh kernel with a
    configuration it accepts, ends in the store the initial-condition
    statements leave: no update is applied and [x], [S], [P] hold the
    values of [x0], [S0], [P0]. *)
Theorem zero_steps_returns_initial_conditions (c : config) (d : draws) :
  runnable c -> NUM_STEPS c = 0%Z ->
  exists s,
    run (simulation c d) = Ok s /\
    run (setup c d) = Ok s /\
    value_of s "x0" = Some (OVec (x0_of c d)) /\
    value_of s "x" = Some (OVec (x0_of c d)) /\
    value_of s "S0" = Some (OMat (S0_of c d)) /\
    value_of s "S" = Some (OMat (S0_of c d)) /\
    value_of s "P0" = Some (OMat (P0_of c d)) /\
    value_of s "P" = Some (OMat (P0_of c d)).
Proof.
  intros Hr Hn. exists (after_setup c d).
  pose proof (setup_exec c d Hr) as Hs.
  split; [|split].
  - apply (run_Ok _ tt). unfold simulation. rewrite Hn.
    erewrite bind_Ok by exact Hs. done.
  - by apply (run_Ok _ tt).
  - destruct (loop_inv_values _ _ _ _ (loop_inv_after_setup c d))
      as (_ & _ & Hx0 & _ & HP0 & HS0 & Hx & HS & HP).
    done.
Qed.

Lemma zero_steps_returns_initial_conditions_witness :
  exists s,
    run (simulation (mkConfig 1 1 0 (1 / 2) 1 0 0) unit_draws) = Ok s /\
    value_of s "x" = value_of s "x0" /\
    value_of s "S" = value_of s "S0" /\
    value_of s "P" = value_of s "P0".
Proof.
  destruct (zero_steps_returns_initial_conditions
              (mkConfig 1 1 0 (1 / 2) 1 0 0) unit_draws
              (runnable_small 0) eq_refl)
    as (s & Hrun & _ & Hx0 & Hx & HS0 & HS & HP0 & HP).
  exists s. split; [exact Hrun|]. rewrite Hx0, Hx, HS0, HS, HP0, HP. done.
Defined.

(** ** C7: what an invalid configuration does *)

Lemma setup_negative_dimension c d s :
  (N c < 0)%Z \/ (K c < 0)%Z -> setup c d s = Raise RuntimeError.
Proof.
  intros H. unfold setup. apply bind_Raise, lift_Raise. unfold etas_rhs.
  destruct (Z.ltb_spec (N c) 0); [done|].
  destruct (Z.ltb_spec (K c) 0); [done|]. lia.
Qed.






Lemma final_distance_exec c d st s :
  loop_inv c d st s -> h_bound s ->
  exists r, final_distance s = Ok (r, s).
Proof.
  intros ([tail Hh] & Ee & Em & _) (lh & h & Eh & Hhh).
  unfold final_distance.
  erewrite bind_Ok by (by eapply (read_vec_whole "h" lh h)).
  erewrite bind_Ok
    by (eapply (read_vec_column "mem" 0%nat (col_of c) (etas_of c d));
        [done|by rewrite Hh]).
  by eexists.
Qed.


Lemma cell_runs c d :
  runnable c -> (0 < NUM_STEPS c)%Z ->
  exists r s, cell c d fresh_kernel = Ok (r, s).
Proof.
  intros Hr Hn.
  destruct (simulation_steps_exec c d (Z.to_nat (NUM_STEPS c)) Hr)
    as (s & Hrun & Hinv & Hb).
  destruct (final_distance_exec c d _ s Hinv (Hb ltac:(lia))) as (r & Hf).
  eexists _, s. unfold cell.
  erewrite bind_Ok by exact Hrun.
  erewrite bind_Ok by apply (initial_distance_exec c d _ _ Hinv).
  erewrite bind_Ok by exact Hf. done.
Qed.

(** The tutorial's own parameters are accepted, whatever the draws. *)
Lemma tutorial_config_runs d :
  exists r s, cell tutorial_config d fresh_kernel = Ok (r, s).
Proof.
  apply cell_runs; [|done]. repeat split; simpl; try lia. lra.
Qed.




(** ** C8: the run is a function of the configuration and the draws *)

Lemma etas_rhs_ext n k f g :
  (forall i j, (i < Z.to_nat n)%nat -> (j < Z.to_nat k)%nat -> f i j = g i j) ->
  etas_rhs n k f = etas_rhs n k g.
Proof.
  intros H. unfold etas_rhs. destruct (_ || _); [done|]. f_equal.
  apply mtab_ext. intros i j Hi Hj. by rewrite H.
Qed.

Lemma generate_corruption_vector_ext len p f g :
  (forall i, (i < Z.to_nat len)%nat -> f i = g i) ->
  generate_corruption_vector len p f = generate_corruption_vector len p g.
Proof.
  intros H. unfold generate_corruption_vector. destruct (_ <? _)%Z; [done|].
  by rewrite (tabulate_ext _ f g).
Qed.

Lemma setup_ext c d1 d2 s :
  (forall i j, (i < Z.to_nat (N c))%nat -> (j < Z.to_nat (K c))%nat ->
               randint_draw d1 i j = randint_draw d2 i j) ->
  (forall i, (i < Z.to_nat (N c))%nat -> rand_draw d1 i = rand_draw d2 i) ->
  setup c d1 s = setup c d2 s.
Proof.
  intros H1 H2. unfold setup.
  rewrite (etas_rhs_ext _ _ _ _ H1).
  rewrite (generate_corruption_vector_ext _ (corruption_level c) _ _ H2).
  done.
Qed.

(** C8. Two runs of the cell with the same configuration, whose generators
    hand out the same memory-bank draws and the same corruption-vector
    draws (on the N x K and N positions that are consumed), pass through the
    same store after every number of iterations: same [x], [S], [P], [h],
    same exception if one is raised, and the same reported distances. *)
Theorem runs_with_same_draws_coincide (c : config) (d1 d2 : draws) :
  (forall i j, (i < Z.to_nat (N c))%nat -> (j < Z.to_nat (K c))%nat ->
               randint_draw d1 i j = randint_draw d2 i j) ->
  (forall i, (i < Z.to_nat (N c))%nat -> rand_draw d1 i = rand_draw d2 i) ->
  (forall n, run (setup c d1 ;;; integrate c n)
             = run (setup c d2 ;;; integrate c n)) /\
  run (simulation c d1) = run (simulation c d2) /\
  (simulation c d1 ;;; initial_distance) fresh_kernel
  = (simulation c d2 ;;; initial_distance) fresh_kernel /\
  (simulation c d1 ;;; final_distance) fresh_kernel
  = (simulation c d2 ;;; final_distance) fresh_kernel.
Proof.
  intros H1 H2.
  pose proof (setup_ext c d1 d2 fresh_kernel H1 H2) as Hs.
  repeat split; intros; unfold run, simulation, bind; by rewrite Hs.
Qed.

Lemma runs_with_same_draws_coincide_witness :
  run (simulation (mkConfig 1 1 3 (1 / 2) 1 0 0) unit_draws)
  = run (simulation (mkConfig 1 1 3 (1 / 2) 1 0 0) other_draws).
Proof.
  refine (proj1 (proj2 (runs_with_same_draws_coincide
            (mkConfig 1 1 3 (1 / 2) 1 0 0) unit_draws other_draws _ _))).
  - intros i j Hi Hj. simpl in Hi, Hj.
    destruct i; [|lia]. destruct j; [|lia]. reflexivity.
  - intros i Hi. simpl in Hi. destruct i; [|lia]. reflexivity.
Defined.

(** ** C9: the memory bank *)

(** C9. For [N > 0], [K > 0] and every draw of [torch.randint(2, (N, K))]
    (entries 0 or 1), the memory bank [2 * draw - 1] is created without
    error, has shape N x K, and each entry is exactly -1 or exactly +1. *)
Theorem memory_bank_entries (n k : Z) (bits : nat -> nat -> Z) :
  (0 < n)%Z -> (0 < k)%Z ->
  (forall i j, bits i j = 0%Z \/ bits i j = 1%Z) ->
  exists etas,
    etas_rhs n k bits = Ok etas /\
    has_shape etas (Z.to_nat n) (Z.to_nat k) /\
    forall i j, (i < Z.to_nat n)%nat -> (j < Z.to_nat k)%nat ->
                mget etas i j = -1 \/ mget etas i j = 1.
Proof.
  intros Hn Hk Hb.
  exists (mtab (Z.to_nat n) (Z.to_nat k) (fun i j => 2 * IZR (bits i j) - 1)).
  split; [|split].
  - unfold etas_rhs.
    destruct (Z.ltb_spec n 0); [lia|]. destruct (Z.ltb_spec k 0); [lia|]. done.
  - apply mtab_has_shape.
  - intros i j Hi Hj. rewrite mget_mtab by done.
    destruct (Hb i j) as [-> | ->]; [left|right]; lra.
Qed.

Lemma memory_bank_entries_witness :
  exists etas,
    etas_rhs 2 3 (fun i j => if Nat.eqb i j then 1%Z else 0%Z) = Ok etas /\
    has_shape etas 2 3 /\
    (mget etas 0 0 = 1 /\ mget etas 0 1 = -1).
Proof.
  destruct (memory_bank_entries 2 3 (fun i j => if Nat.eqb i j then 1%Z else 0%Z)
              ltac:(lia) ltac:(lia)
              ltac:(intros i j; cbv beta; destruct (Nat.eqb i j); [right|left]; reflexivity))
    as (etas & He & Hs & _).
  exists etas. split; [exact He|]. split; [exact Hs|].
  injection He as <-. split; unfold mget; simpl; lra.
Defined.

(** ** C10: the loop works on clones *)

(** C10. For every configuration the cell accepts and every number of
    iterations, the objects named [x0], [S0], [P0] (and the view [mem])
    hold after the loop what they held before it, and the statement
    [initial_distance = torch.norm(torch.sign(x0) - mem)] evaluated after
    the loop returns the distance of the seed computed by the
    initial-condition statements. *)
Theorem loop_leaves_initial_conditions (c : config) (d : draws) (n : nat) :
  runnable c ->
  exists s0 s,
    run (setup c d) = Ok s0 /\
    run (setup c d ;;; integrate c n) = Ok s /\
    value_of s0 "x0" = Some (OVec (x0_of c d)) /\
    value_of s "x0" = value_of s0 "x0" /\
    value_of s "S0" = value_of s0 "S0" /\
    value_of s "P0" = value_of s0 "P0" /\
    value_of s "mem" = value_of s0 "mem" /\
    initial_distance s0 =
      Ok (torch_norm (vsub (torch_sign (x0_of c d)) (mem_of c d)), s0) /\
    initial_distance s =
      Ok (torch_norm (vsub (torch_sign (x0_of c d)) (mem_of c d)), s).
Proof.
  intros Hr.
  destruct (simulation_steps_exec c d n Hr) as (s & Hrun & Hinv & _).
  pose proof (loop_inv_after_setup c d) as Hinv0.
  exists (after_setup c d), s.
  destruct (loop_inv_values _ _ _ _ Hinv0) as (_ & Hm0 & Hx0 & _ & HP0 & HS0 & _).
  destruct (loop_inv_values _ _ _ _ Hinv) as (_ & Hm & Hx & _ & HP & HS & _).
  split; [apply (run_Ok _ tt), setup_exec, Hr|].
  split; [apply (run_Ok _ tt), Hrun|].
  rewrite Hm0, Hx0, HP0, HS0, Hm, Hx, HP, HS.
  do 5 (split; [reflexivity|]).
  split.
  - apply (initial_distance_exec c d _ _ Hinv0).
  - apply (initial_distance_exec c d _ _ Hinv).
Qed.

Lemma loop_leaves_initial_conditions_witness :
  exists s,
    run (setup (mkConfig 1 1 3 (1 / 2) 1 0 0) unit_draws ;;;
         integrate (mkConfig 1 1 3 (1 / 2) 1 0 0) 3) = Ok s /\
    value_of s "x0" = Some (OVec (x0_of (mkConfig 1 1 3 (1 / 2) 1 0 0) unit_draws)).
Proof.
  destruct (loop_leaves_initial_conditions
              (mkConfig 1 1 3 (1 / 2) 1 0 0) unit_draws 3 (runnable_small 3))
    as (s0 & s & _ & Hrun & Hx0 & Hx & _).
  exists s. split; [exact Hrun|]. rewrite Hx. exact Hx0.
Defined.

(** ** Aliasing is visible in the model *)

Lemma in_place_update_reaches_aliases :
  exists s',
    loop_body c1_config aliased_store = Ok (tt, s') /\
    value_of aliased_store "x0" = Some (OVec [1]) /\
    value_of s' "x0" = value_of s' "x" /\
    value_of s' "x0" = Some (OVec [1 + 1 / 2 * (- (1) + (0 + 0 * tanh (1 * 1)))]).
Proof.
  eexists. split.
  - apply (loop_body_exec c1_config aliased_store 1 2 3 0
             [1] (mkMat 1 1 [[0]]) (mkMat 1 1 [[0]]) (mkMat 1 1 [[1]]));
      try reflexivity; try lia.
    simpl. lra.
  - split; [reflexivity|]. split; reflexivity.
Qed.

(** * Further properties of the cell *)

(** ** The run as an iterate of the Euler map *)



(** ** Shapes *)

Lemma madd_has_shape A B n k :
  nrows A = n -> ncols A = k -> has_shape (madd A B) n k.
Proof. intros <- <-. apply mtab_has_shape. Qed.

Lemma smulm_has_shape a M n k :
  nrows M = n -> ncols M = k -> has_shape (smulm a M) n k.
Proof. intros <- <-. apply mtab_has_shape. Qed.

Lemma state_after_has_shape c d n :
  has_shape (snd (fst (state_after c d n))) (Z.to_nat (N c)) (Z.to_nat (N c)) /\
  has_shape (snd (state_after c d n)) (Z.to_nat (N c)) (Z.to_nat (N c)).
Proof.
  destruct n as [|n].
  - destruct (psi_0_sym c d) as (Hr & Hc & _).
    split; apply smulm_has_shape; try reflexivity; [exact Hr|exact Hc].
  - destruct (state_after_sym c d n) as (_ & (HSr & HSc & _) & (HPr & HPc & _)).
    unfold state_after in *. rewrite euler_iter_S.
    destruct (euler_iter n _ _ _ _ _) as [[x S] P]. cbn [fst snd] in *.
    cbn [euler_step fst snd].
    split; by apply madd_has_shape.
Qed.

(** X2. For every configuration the cell accepts and every number of
    iterations, the tensors keep their declared shapes: [etas] is N x K,
    [mem], [x0] and [x] have length N, and [S], [P] are N x N. *)
Theorem shapes_are_kept (c : config) (d : draws) (n : nat) :
  runnable c ->
  exists s etas mem x0 x S P,
    run (setup c d ;;; integrate c n) = Ok s /\
    value_of s "etas" = Some (OMat etas) /\
    value_of s "mem" = Some (OVec mem) /\
    value_of s "x0" = Some (OVec x0) /\
    value_of s "x" = Some (OVec x) /\
    value_of s "S" = Some (OMat S) /\
    value_of s "P" = Some (OMat P) /\
    has_shape etas (Z.to_nat (N c)) (Z.to_nat (K c)) /\
    length mem = Z.to_nat (N c) /\
    length x0 = Z.to_nat (N c) /\
    length x = Z.to_nat (N c) /\
    has_shape S (Z.to_nat (N c)) (Z.to_nat (N c)) /\
    has_shape P (Z.to_nat (N c)) (Z.to_nat (N c)).
Proof.
  intros Hr.
  destruct (simulation_steps_exec c d n Hr) as (s & Hrun & Hinv & _).
  destruct (loop_inv_values _ _ _ _ Hinv)
    as (He & Hm & Hx0 & _ & _ & _ & Hx & HS & HP).
  destruct (state_after_sym c d n) as (Hlen & _ & _).
  destruct (state_after_has_shape c d n) as (HsS & HsP).
  exists s, (etas_of c d), (mem_of c d), (x0_of c d),
    (fst (fst (state_after c d n))), (snd (fst (state_after c d n))),
    (snd (state_after c d n)).
  split; [apply (run_Ok _ tt), Hrun|].
  do 6 (split; [done|]).
  split; [apply mtab_has_shape|].
  split; [apply length_column|].
  split; [apply length_x0_of|]. done.
Qed.

Lemma shapes_are_kept_witness :
  exists s x S,
    run (setup c5_config unit_draws ;;; integrate c5_config 3) = Ok s /\
    value_of s "x" = Some (OVec x) /\
    value_of s "S" = Some (OMat S) /\
    length x = 2%nat /\ has_shape S 2 2.
Proof.
  destruct (shapes_are_kept c5_config unit_draws 3)
    as (s & etas & mem & x0 & x & S & P & Hrun & _ & _ & _ & Hx & HS & _
        & _ & _ & _ & Hl & HsS & _).
  - repeat split; simpl; try lia. lra.
  - exists s, x, S. repeat split; try done; apply HsS.
Defined.

(** ** The corruption vector at the edges of its parameters *)

Lemma nth_corruption_vector len corruption rand i :
  (i < len)%nat ->
  nth i (map (fun u => if Rle_dec u (1 - corruption) then 1%Z else (-1)%Z)
             (tabulate len rand)) 0%Z
  = if Rle_dec (rand i) (1 - corruption) then 1%Z else (-1)%Z.
Proof.
  intros Hi.
  set (pick := fun u : R => if Rle_dec u (1 - corruption) then 1%Z else (-1)%Z).
  rewrite (nth_indep _ 0%Z (pick 0)) by (by rewrite length_map, length_tabulate).
  rewrite (map_nth pick). by rewrite nth_tabulate.
Qed.

(** X3. [generate_corruption_vector] refuses a negative length (the
    exception of [torch.rand]); for a length [>= 0] and draws in [0,1) it
    returns that many entries, each +1 or -1, whatever the corruption is;
    a corruption [<= 0] gives only +1 and a corruption [> 1] only -1: values
    outside [0,1] are not rejected, they saturate. *)
Theorem corruption_vector_edges (len : Z) (corruption : R) (rand : nat -> R) :
  (forall i, 0 <= rand i < 1) ->
  ((len < 0)%Z ->
     generate_corruption_vector len corruption rand = Raise RuntimeError) /\
  ((0 <= len)%Z ->
     exists v,
       generate_corruption_vector len corruption rand = Ok v /\
       length v = Z.to_nat len /\
       (forall i, (i < Z.to_nat len)%nat ->
          nth i v 0%Z = 1%Z \/ nth i v 0%Z = (-1)%Z) /\
       (corruption <= 0 ->
          forall i, (i < Z.to_nat len)%nat -> nth i v 0%Z = 1%Z) /\
       (1 < corruption ->
          forall i, (i < Z.to_nat len)%nat -> nth i v 0%Z = (-1)%Z)).
Proof.
  intros Hu. split.
  - intros Hlen. unfold generate_corruption_vector.
    destruct (Z.ltb_spec len 0); [done|lia].
  - intros Hlen. eexists. split; [|split; [|split; [|split]]].
    + unfold generate_corruption_vector.
      destruct (Z.ltb_spec len 0); [lia|]. reflexivity.
    + by rewrite length_map, length_tabulate.
    + intros i Hi. rewrite nth_corruption_vector by done.
      destruct (Rle_dec _ _); [by left|by right].
    + intros Hc i Hi. rewrite nth_corruption_vector by done.
      destruct (Rle_dec _ _) as [_|Hn]; [done|].
      exfalso. pose proof (Hu i). lra.
    + intros Hc i Hi. rewrite nth_corruption_vector by done.
      destruct (Rle_dec _ _) as [Hle|_]; [|done].
      exfalso. pose proof (Hu i). lra.
Qed.

Lemma corruption_vector_edges_witness :
  generate_corruption_vector (-1) 2 (rand_draw other_draws) = Raise RuntimeError /\
  exists v,
    generate_corruption_vector 2 2 (rand_draw other_draws) = Ok v /\
    nth 0 v 0%Z = (-1)%Z /\ nth 1 v 0%Z = (-1)%Z.
Proof.
  assert (Hu : forall i, 0 <= rand_draw other_draws i < 1)
    by (intros i; simpl; destruct (Nat.eqb i 0); lra).
  split.
  - apply (proj1 (corruption_vector_edges (-1) 2 _ Hu)). lia.
  - destruct (proj2 (corruption_vector_edges 2 2 _ Hu) ltac:(lia))
      as (v & Hv & _ & _ & _ & Hm).
    exists v. split; [exact Hv|].
    split; apply Hm; try lra; simpl; lia.
Defined.

(** ** The initial distance counts the flipped entries *)

Lemma rsum_shift n f : rsum (S n) f = f 0%nat + rsum n (fun i => f (S i)).
Proof.
  induction n as [|n IH]; [simpl; lra|].
  change (rsum (S (S n)) f) with (rsum (S n) f + f (S n)).
  rewrite IH. simpl. lra.
Qed.

Lemma rsum_count_minus_one (l : list Z) :
  rsum (length l)
       (fun i => if Z.eq_dec (nth i l 0%Z) (-1)%Z then 4 else 0)
  = 4 * INR (count_occ Z.eq_dec l (-1)%Z).
Proof.
  induction l as [|a l IH].
  - simpl. lra.
  - cbn [length]. rewrite rsum_shift. cbn [nth]. rewrite IH.
    cbn [count_occ]. destruct (Z.eq_dec a (-1)%Z); [rewrite S_INR|]; lra.
Qed.

Lemma sign_pm1 v : v = 1 \/ v = -1 -> sign v = v.
Proof.
  intros [-> | ->]; unfold sign.
  - destruct (Rlt_dec 1 0); [lra|]. destruct (Rlt_dec 0 1); [done|lra].
  - destruct (Rlt_dec (-1) 0); [done|lra].
Qed.

Lemma col_of_lt c : runnable c -> (col_of c < Z.to_nat (K c))%nat.
Proof.
  intros (_ & Hidx & _). unfold col_of.
  destruct (Z.leb_spec 0 (memory_to_seed_from c)); lia.
Qed.

Lemma mem_of_pm1 c d i :
  runnable c ->
  (forall a b, randint_draw d a b = 0%Z \/ randint_draw d a b = 1%Z) ->
  (i < Z.to_nat (N c))%nat ->
  vget (mem_of c d) i = 1 \/ vget (mem_of c d) i = -1.
Proof.
  intros Hr Hb Hi. unfold mem_of, column, etas_of.
  rewrite vget_vtab by (cbn [nrows mtab]; done).
  rewrite mget_mtab by (try done; by apply col_of_lt).
  destruct (Hb i (col_of c)) as [-> | ->]; [right|left]; lra.
Qed.

Lemma length_corruption_vector_of c d :
  length (corruption_vector_of c d) = Z.to_nat (N c).
Proof. unfold corruption_vector_of. by rewrite length_map, length_tabulate. Qed.

Lemma vget_x0_of c d i :
  (i < Z.to_nat (N c))%nat ->
  vget (x0_of c d) i
  = vget (mem_of c d) i * IZR (nth i (corruption_vector_of c d) 0%Z).
Proof.
  intros Hi. unfold x0_of, x0_rhs, vmul.
  rewrite vget_vtab by (unfold mem_of; by rewrite length_column).
  unfold to_float, vget at 2. by rewrite (map_nth IZR _ 0%Z i).
Qed.

Lemma initial_distance_value c d :
  runnable c ->
  (forall a b, randint_draw d a b = 0%Z \/ randint_draw d a b = 1%Z) ->
  torch_norm (vsub (torch_sign (x0_of c d)) (mem_of c d))
  = sqrt (4 * INR (count_occ Z.eq_dec (corruption_vector_of c d) (-1)%Z)).
Proof.
  intros Hr Hb. unfold torch_norm. f_equal.
  rewrite <- rsum_count_minus_one, length_corruption_vector_of.
  assert (Hs : length (torch_sign (x0_of c d)) = Z.to_nat (N c))
    by (unfold torch_sign; etransitivity; [apply length_vmap|apply length_x0_of]).
  assert (Hl : length (vsub (torch_sign (x0_of c d)) (mem_of c d))
               = Z.to_nat (N c))
    by (etransitivity; [apply length_vtab|exact Hs]).
  rewrite Hl. apply rsum_ext. intros i Hi.
  unfold vsub. rewrite vget_vtab by (by rewrite Hs).
  unfold torch_sign. rewrite vget_vmap by (by rewrite length_x0_of).
  rewrite vget_x0_of by done.
  pose proof (mem_of_pm1 c d i Hr Hb Hi) as Hm.
  unfold corruption_vector_of. rewrite nth_corruption_vector by done.
  destruct (Rle_dec _ _).
  - destruct (Z.eq_dec 1%Z (-1)%Z); [lia|].
    rewrite Rmult_1_r, sign_pm1 by done. lra.
  - destruct (Z.eq_dec (-1)%Z (-1)%Z); [|lia].
    replace (vget (mem_of c d) i * -1) with (- vget (mem_of c d) i) by lra.
    rewrite sign_pm1 by (destruct Hm as [-> | ->]; [right|left]; lra).
    destruct Hm as [-> | ->]; lra.
Qed.

(** X4. For every accepted configuration and every draw of the memory bank
    (entries 0 or 1), the reported initial distance
    [torch.norm(torch.sign(x0) - mem)], whenever it is evaluated (before or
    after any number of iterations), equals [sqrt(4 * f)], [f] being the
    number of -1 entries of the corruption vector: each flipped entry of
    the seed contributes 2 in absolute value, each other entry 0. *)
Theorem initial_distance_counts_flips (c : config) (d : draws) (n : nat) :
  runnable c ->
  (forall a b, randint_draw d a b = 0%Z \/ randint_draw d a b = 1%Z) ->
  exists s cv,
    run (setup c d ;;; integrate c n) = Ok s /\
    generate_corruption_vector (N c) (corruption_level c) (rand_draw d) = Ok cv /\
    initial_distance s
    = Ok (sqrt (4 * INR (count_occ Z.eq_dec cv (-1)%Z)), s).
Proof.
  intros Hr Hb.
  destruct (simulation_steps_exec c d n Hr) as (s & Hrun & Hinv & _).
  exists s, (corruption_vector_of c d).
  split; [apply (run_Ok _ tt), Hrun|].
  split; [apply generate_corruption_vector_Ok; destruct Hr; lia|].
  rewrite (initial_distance_exec c d _ _ Hinv).
  by rewrite initial_distance_value.
Qed.

Lemma initial_distance_counts_flips_witness :
  exists s cv,
    run (setup c5_config unit_draws ;;; integrate c5_config 3) = Ok s /\
    generate_corruption_vector 2 0 (rand_draw unit_draws) = Ok cv /\
    initial_distance s = Ok (sqrt (4 * INR (count_occ Z.eq_dec cv (-1)%Z)), s).
Proof.
  destruct (initial_distance_counts_flips c5_config unit_draws 3)
    as (s & cv & Hrun & Hcv & Hd).
  - repeat split; simpl; try lia. lra.
  - intros a b. right. reflexivity.
  - exists s, cv. split; [exact Hrun|]. split; [exact Hcv|exact Hd].
Defined.

(** ** The final distance is read one update late *)

Lemma tanh_0 : tanh 0 = 0.
Proof. unfold tanh. rewrite sinh_0, cosh_0. lra. Qed.

Lemma sign_tanh_scaled beta v : 0 < beta -> sign (tanh (beta * v)) = sign v.
Proof.
  intros Hb. unfold sign.
  destruct (Rlt_dec v 0) as [Hv|Hv].
  - assert (0 < tanh (- (beta * v))) by (apply tanh_pos; nra).
    rewrite tanh_opp in *. destruct (Rlt_dec (tanh (beta * v)) 0); [done|lra].
  - destruct (Rlt_dec 0 v) as [Hp|Hp].
    + assert (0 < tanh (beta * v)) by (apply tanh_pos; nra).
      destruct (Rlt_dec (tanh (beta * v)) 0); [lra|].
      destruct (Rlt_dec 0 (tanh (beta * v))); [done|lra].
    + replace v with 0 by lra. rewrite Rmult_0_r, tanh_0.
      destruct (Rlt_dec 0 0); [lra|done].
Qed.

Lemma torch_sign_tanh beta x :
  0 < beta -> torch_sign (torch_tanh_v (smulv beta x)) = torch_sign x.
Proof.
  intros Hb. unfold torch_sign, torch_tanh_v.
  assert (Hl : length (vmap tanh (smulv beta x)) = length x)
    by (etransitivity; [apply length_vmap|apply length_smulv]).
  unfold vmap at 1. rewrite Hl. apply vtab_ext. intros i Hi.
  rewrite vget_vmap by (by rewrite length_smulv).
  rewrite vget_smulv by done. by apply sign_tanh_scaled.
Qed.

(** After at least one iteration, [h] is the activation of the [x] the
    last iteration started from. *)
Lemma integrate_last_h c d n : forall st s,
  (0 < N c)%Z -> loop_inv c d st s ->
  exists s' lh,
    integrate c (S n) s = Ok (tt, s') /\
    loop_inv c d
      (euler_iter (S n) (dt c) (beta c) (1 / IZR (N c ^ 3)) (etas_of c d) st) s' /\
    env s' !! "h" = Some (Whole lh) /\
    heap s' !! lh =
      Some (OVec (torch_tanh_v (smulv (beta c)
        (fst (fst (euler_iter n (dt c) (beta c) (1 / IZR (N c ^ 3))
                     (etas_of c d) st)))))).
Proof.
  induction n as [|n IH]; intros st s HN Hinv.
  - destruct (loop_body_inv c d st s HN Hinv)
      as (s1 & Hrun & Hinv1 & lh & h & Hh1 & Hh2 & ->).
    exists s1, lh. split; [|done].
    unfold integrate. cbn [for_range]. erewrite bind_Ok by exact Hrun. done.
  - destruct (loop_body_inv c d st s HN Hinv) as (s1 & Hrun & Hinv1 & _).
    destruct (IH _ s1 HN Hinv1) as (s2 & lh & Hrun2 & Hinv2 & Hh1 & Hh2).
    exists s2, lh. split; [|done].
    unfold integrate. cbn [for_range]. erewrite bind_Ok by exact Hrun.
    exact Hrun2.
Qed.

(** X5. For every accepted configuration with [beta > 0], after [n+1]
    iterations the name [h] holds [tanh(beta * x)] for the [x] reached
    after [n] iterations, so the reported final distance
    [torch.norm(torch.sign(h) - mem)] is the distance of the state before
    the last update, [norm(sign(x_n) - mem)], not of the final [x]. *)
Theorem final_distance_lags_one_step (c : config) (d : draws) (n : nat) :
  runnable c -> 0 < beta c ->
  exists s,
    run (setup c d ;;; integrate c (S n)) = Ok s /\
    value_of s "h" =
      Some (OVec (torch_tanh_v
                    (smulv (beta c) (fst (fst (state_after c d n)))))) /\
    value_of s "x" = Some (OVec (fst (fst (state_after c d (S n))))) /\
    final_distance s =
      Ok (torch_norm (vsub (torch_sign (fst (fst (state_after c d n))))
                           (mem_of c d)), s).
Proof.
  intros Hr Hb.
  destruct (integrate_last_h c d n _ _ (proj1 Hr) (loop_inv_after_setup c d))
    as (s & lh & Hrun & Hinv & Hh1 & Hh2).
  destruct (loop_inv_values _ _ _ _ Hinv)
    as (_ & _ & _ & _ & _ & _ & Hx & _).
  exists s. split; [|split; [|split]].
  - apply (run_Ok _ tt). erewrite bind_Ok by (by apply setup_exec). exact Hrun.
  - unfold value_of. rewrite Hh1. exact Hh2.
  - exact Hx.
  - destruct Hinv as ([tail Hheap] & Ee & Em & _).
    unfold final_distance.
    erewrite bind_Ok by (by eapply (read_vec_whole "h" lh)).
    erewrite bind_Ok
      by (eapply (read_vec_column "mem" 0%nat (col_of c) (etas_of c d));
          [done|by rewrite Hheap]).
    unfold state_after. rewrite torch_sign_tanh by done. done.
Qed.

Lemma final_distance_lags_one_step_witness :
  exists s,
    run (setup (mkConfig 1 1 3 (1 / 2) 1 0 0) unit_draws ;;;
         integrate (mkConfig 1 1 3 (1 / 2) 1 0 0) 1) = Ok s /\
    final_distance s =
      Ok (torch_norm
            (vsub (torch_sign (x0_of (mkConfig 1 1 3 (1 / 2) 1 0 0) unit_draws))
                  (mem_of (mkConfig 1 1 3 (1 / 2) 1 0 0) unit_draws)), s).
Proof.
  destruct (final_distance_lags_one_step
              (mkConfig 1 1 3 (1 / 2) 1 0 0) unit_draws 0 (runnable_small 3))
    as (s & Hrun & _ & _ & Hf).
  - simpl. lra.
  - exists s. split; [exact Hrun|exact Hf].
Defined.

(** ** Matrices are determined by their shape and entries *)

Lemma mtab_mget M n k : has_shape M n k -> mtab n k (mget M) = M.
Proof.
  destruct M as [r c b]. intros (Hr & Hc & Hl & Hrows). simpl in *.
  subst r c. unfold mtab. f_equal.
  apply (nth_ext _ _ [] []).
  - by rewrite length_tabulate.
  - intros i Hi. rewrite length_tabulate in Hi.
    rewrite nth_tabulate by done.
    assert (Hrow : length (nth i b []) = k).
    { rewrite Forall_forall in Hrows. apply Hrows.
      apply list_elem_of_In, nth_In. lia. }
    rewrite <- Hrow. apply (tabulate_nth (nth i b [])).
Qed.

Lemma mat_ext A B n k :
  has_shape A n k -> has_shape B n k ->
  (forall i j, (i < n)%nat -> (j < k)%nat -> mget A i j = mget B i j) ->
  A = B.
Proof.
  intros HA HB H.
  rewrite <- (mtab_mget A n k HA), <- (mtab_mget B n k HB).
  by apply mtab_ext.
Qed.

Lemma mneg_has_shape M n k :
  nrows M = n -> ncols M = k -> has_shape (mneg M) n k.
Proof. intros <- <-. apply mtab_has_shape. Qed.

Lemma mmap_has_shape f M n k :
  nrows M = n -> ncols M = k -> has_shape (mmap f M) n k.
Proof. intros <- <-. apply mtab_has_shape. Qed.

Lemma length_torch_tanh_v beta x : length (torch_tanh_v (smulv beta x)) = length x.
Proof.
  unfold torch_tanh_v. etransitivity; [apply length_vmap|apply length_smulv].
Qed.

Lemma vget_torch_tanh_v beta x i :
  (i < length x)%nat ->
  vget (torch_tanh_v (smulv beta x)) i = tanh (beta * vget x i).
Proof.
  intros Hi. unfold torch_tanh_v.
  rewrite vget_vmap by (by rewrite length_smulv). by rewrite vget_smulv.
Qed.

Lemma psi_0_rhs_has_shape beta x0 :
  has_shape (psi_0_rhs beta x0) (length x0) (length x0).
Proof.
  unfold psi_0_rhs. apply mneg_has_shape; cbn [nrows ncols outer mtab];
    apply length_torch_tanh_v.
Qed.

Lemma psi_0_entry_bounds beta x0 i j :
  (i < length x0)%nat -> (j < length x0)%nat ->
  -1 < mget (psi_0_rhs beta x0) i j < 1.
Proof.
  intros Hi Hj. rewrite psi_0_entry by done.
  pose proof (tanh_bounds (beta * vget x0 i)).
  pose proof (tanh_bounds (beta * vget x0 j)). nra.
Qed.

(** ** The inverse link is undone by the first iteration *)

(** [tanh(beta * P0) = psi_0], as matrices, for every seed and [beta <> 0]. *)
Lemma tanh_P0_is_psi_0 beta x0 :
  beta <> 0 ->
  torch_tanh_m (smulm beta (P0_rhs (1 / beta) (psi_0_rhs beta x0)))
  = psi_0_rhs beta x0.
Proof.
  intros Hb.
  destruct (psi_0_rhs_has_shape beta x0) as (Hr & Hc & _).
  apply (mat_ext _ _ (length x0) (length x0)).
  - unfold torch_tanh_m. apply mmap_has_shape; cbn [nrows ncols smulm mtab];
      unfold P0_rhs; cbn [nrows ncols smulm mtab torch_atanh_m mmap]; done.
  - apply psi_0_rhs_has_shape.
  - intros i j Hi Hj. unfold torch_tanh_m.
    rewrite mget_mmap
      by (unfold P0_rhs; cbn [nrows ncols smulm mtab torch_atanh_m mmap]; lia).
    rewrite mget_smulm
      by (unfold P0_rhs; cbn [nrows ncols smulm mtab torch_atanh_m mmap]; lia).
    rewrite P0_entry by done.
    replace (beta * (1 / beta * atanh (mget (psi_0_rhs beta x0) i j)))
      with (atanh (mget (psi_0_rhs beta x0) i j)) by (field; lra).
    apply tanh_atanh. by apply psi_0_entry_bounds.
Qed.

Lemma first_S_drive_vanishes c d :
  madd (madd (mneg (S0_of c d))
             (outer (torch_tanh_v (smulv (beta c) (x0_of c d)))
                    (torch_tanh_v (smulv (beta c) (x0_of c d)))))
       (psi_0_of c d)
  = mneg (S0_of c d).
Proof.
  destruct (S0_sym c d) as (Hr & Hc & _).
  pose proof (length_x0_of c d) as Hx.
  apply (mat_ext _ _ (Z.to_nat (N c)) (Z.to_nat (N c))).
  - apply madd_has_shape; cbn [nrows ncols madd mneg mtab]; done.
  - by apply mneg_has_shape.
  - intros i j Hi Hj.
    rewrite mget_madd by (cbn [nrows ncols madd mneg mtab]; lia).
    rewrite mget_madd by (cbn [nrows ncols madd mneg mtab]; lia).
    rewrite mget_outer by (rewrite length_torch_tanh_v; lia).
    unfold psi_0_of. rewrite psi_0_entry by lia.
    rewrite !vget_torch_tanh_v by lia. lra.
Qed.

(** X6. For every accepted configuration, the first iteration recovers
    [psi_0] from [P0]: the tensor it binds to [psi] is [tanh(beta * P0)],
    which equals [psi_0 = -outer(h,h)] because [P0] was built as
    [(1/beta) * atanh(psi_0)]; the drive [outer(h,h) + psi] of the [S]
    update then cancels and the first update is the plain decay
    [S = S0 + dt * (-S0)]. *)
Theorem first_iteration_recovers_psi_0 (c : config) (d : draws) :
  runnable c ->
  exists s,
    run (setup c d ;;; integrate c 1) = Ok s /\
    value_of s "psi" = Some (OMat (psi_0_of c d)) /\
    value_of s "S" =
      Some (OMat (madd (S0_of c d) (smulm (dt c) (mneg (S0_of c d))))).
Proof.
  intros Hr. pose proof Hr as (HN & _ & Hb).
  exists (after_loop_body c (after_setup c d) 5 6 7
            (x0_of c d) (S0_of c d) (P0_of c d) (etas_of c d)).
  split; [|split].
  - apply (run_Ok _ tt). erewrite bind_Ok by (by apply setup_exec).
    unfold integrate. cbn [for_range].
    erewrite bind_Ok; [reflexivity|].
    apply (loop_body_exec c (after_setup c d) 5 6 7 0);
      try reflexivity; try lia. by apply runnable_N3.
  - unfold value_of, after_loop_body. cbn [heap env after_setup].
    simplify_map_eq. cbn [deref app length]. cbn.
    unfold P0_of, psi_0_of. by rewrite tanh_P0_is_psi_0.
  - unfold value_of, after_loop_body. cbn [heap env after_setup].
    simplify_map_eq. cbn [deref app length]. cbn.
    unfold S_incr. fold (P0_of c d).
    replace (torch_tanh_m (smulm (beta c) (P0_of c d))) with (psi_0_of c d)
      by (unfold P0_of, psi_0_of; by rewrite tanh_P0_is_psi_0).
    by rewrite first_S_drive_vanishes.
Qed.

Lemma first_iteration_recovers_psi_0_witness :
  exists s,
    run (setup c5_config unit_draws ;;; integrate c5_config 1) = Ok s /\
    value_of s "psi" = Some (OMat (psi_0_of c5_config unit_draws)).
Proof.
  destruct (first_iteration_recovers_psi_0 c5_config unit_draws)
    as (s & Hrun & Hpsi & _).
  - repeat split; simpl; try lia. lra.
  - exists s. split; [exact Hrun|exact Hpsi].
Defined.

(** ** Bounds on the contraction over the memory bank *)

Lemma rsum_bound_strict n f B :
  (forall i, (i < S n)%nat -> - B < f i < B) ->
  - (INR (S n) * B) < rsum (S n) f < INR (S n) * B.
Proof.
  induction n as [|n IH]; intros H.
  - simpl. pose proof (H 0%nat ltac:(lia)). lra.
  - change (rsum (S (S n)) f) with (rsum (S n) f + f (S n)).
    rewrite (S_INR (S n)), Rmult_plus_distr_r.
    pose proof (IH (fun i Hi => H i ltac:(lia))).
    pose proof (H (S n) ltac:(lia)). lra.
Qed.

Lemma rsum_bound_pos n f B :
  (0 < n)%nat -> (forall i, (i < n)%nat -> - B < f i < B) ->
  - (INR n * B) < rsum n f < INR n * B.
Proof.
  intros Hn H. destruct n as [|n]; [lia|]. by apply rsum_bound_strict.
Qed.

Lemma etas_of_entry c d i m :
  (forall a b, randint_draw d a b = 0%Z \/ randint_draw d a b = 1%Z) ->
  (i < Z.to_nat (N c))%nat -> (m < Z.to_nat (K c))%nat ->
  mget (etas_of c d) i m = 1 \/ mget (etas_of c d) i m = -1.
Proof.
  intros Hb Hi Hm. unfold etas_of. rewrite mget_mtab by done.
  destruct (Hb i m) as [-> | ->]; [right|left]; lra.
Qed.

Lemma pm1_product_bound a b c e p :
  (a = 1 \/ a = -1) -> (b = 1 \/ b = -1) -> (c = 1 \/ c = -1) ->
  (e = 1 \/ e = -1) -> -1 < p < 1 ->
  -1 < a * b * c * e * p < 1.
Proof.
  intros [-> | ->] [-> | ->] [-> | ->] [-> | ->] Hp; lra.
Qed.

(** The contraction of a +-1 memory bank against a matrix with entries in
    (-1,1) is smaller than K * N^2 in absolute value. *)
Lemma einsum_entry_bound c d psi i j :
  (0 < N c)%Z -> (0 < K c)%Z ->
  (forall a b, randint_draw d a b = 0%Z \/ randint_draw d a b = 1%Z) ->
  (forall k l, (k < Z.to_nat (N c))%nat -> (l < Z.to_nat (N c))%nat ->
               -1 < mget psi k l < 1) ->
  (i < Z.to_nat (N c))%nat -> (j < Z.to_nat (N c))%nat ->
  - (IZR (K c) * (IZR (N c) * IZR (N c)))
  < mget (einsum_im_jm_km_lm_kl (etas_of c d) (etas_of c d) (etas_of c d)
            (etas_of c d) psi) i j
  < IZR (K c) * (IZR (N c) * IZR (N c)).
Proof.
  intros HN HK Hb Hpsi Hi Hj.
  unfold einsum_im_jm_km_lm_kl. cbn [nrows ncols etas_of mtab].
  fold (etas_of c d). rewrite mget_mtab by done.
  assert (EN : INR (Z.to_nat (N c)) = IZR (N c))
    by (rewrite INR_IZR_INZ, Z2Nat.id by lia; done).
  assert (EK : INR (Z.to_nat (K c)) = IZR (K c))
    by (rewrite INR_IZR_INZ, Z2Nat.id by lia; done).
  rewrite <- EN, <- EK.
  apply rsum_bound_pos; [lia|]. intros m Hm.
  replace (INR (Z.to_nat (N c)) * INR (Z.to_nat (N c)))
    with (INR (Z.to_nat (N c)) * (INR (Z.to_nat (N c)) * 1)) by lra.
  apply rsum_bound_pos; [lia|]. intros k Hk.
  apply rsum_bound_pos; [lia|]. intros l Hl.
  apply pm1_product_bound; try (by apply etas_of_entry). by apply Hpsi.
Qed.

Lemma IZR_N3 n : IZR (n ^ 3) = IZR n * (IZR n * IZR n).
Proof.
  replace (n ^ 3)%Z with (n * (n * n))%Z by ring. by rewrite !mult_IZR.
Qed.

(** ** A negative memory index counts from the end *)

(** X8. For every configuration whose [memory_to_seed_from] lies in
    [-K, 0), the cell behaves exactly as with the index
    [memory_to_seed_from + K]: same store after every number of
    iterations, same exception if one is raised.  In particular [-1] seeds
    from the last memory. *)
Theorem negative_index_counts_from_the_end (c : config) (d : draws) (n : nat) :
  (- K c <= memory_to_seed_from c < 0)%Z ->
  (setup c d ;;; integrate c n) fresh_kernel
  = (setup (with_index c (memory_to_seed_from c + K c)) d ;;;
     integrate (with_index c (memory_to_seed_from c + K c)) n) fresh_kernel.
Proof.
  intros Hidx.
  set (c' := with_index c (memory_to_seed_from c + K c)).
  assert (Hsetup : setup c d fresh_kernel = setup c' d fresh_kernel).
  { destruct (Z.ltb_spec (N c) 0) as [HN|HN].
    { rewrite !setup_negative_dimension by (by left). done. }
    assert (HK : Z.of_nat (ncols (etas_of c d)) = K c) by (simpl; lia).
    match goal with |- _ = ?r => set (rhs := r) end.
    unfold setup, fresh_kernel.
    erewrite bind_Ok by (apply lift_Ok, etas_rhs_Ok; lia).
    run_let_new. norm_store.
    erewrite bind_Ok
      by (eapply (select_column_Ok "etas" 0%nat (etas_of c d));
          [env_lookup|done|rewrite HK; lia]).
    rewrite HK. fold (col_of c).
    subst rhs. symmetry.
    unfold setup, fresh_kernel.
    erewrite bind_Ok by (apply lift_Ok, (etas_rhs_Ok c' d); simpl; lia).
    run_let_new. norm_store.
    erewrite bind_Ok
      by (eapply (select_column_Ok "etas" 0%nat (etas_of c' d));
          [env_lookup|done|simpl; lia]).
    change (Z.of_nat (ncols (etas_of c' d))) with (Z.of_nat (ncols (etas_of c d))).
    rewrite HK. unfold col_of. cbn [memory_to_seed_from K c' with_index].
    destruct (Z.leb_spec 0 (memory_to_seed_from c)); [lia|].
    destruct (Z.leb_spec 0 (memory_to_seed_from c + K c)); [|lia].
    reflexivity. }
  unfold bind. rewrite Hsetup. reflexivity.
Qed.

Lemma negative_index_counts_from_the_end_witness :
  (setup unvalidated_config unit_draws ;;; integrate unvalidated_config 2)
    fresh_kernel
  = (setup (with_index unvalidated_config 0) unit_draws ;;;
     integrate (with_index unvalidated_config 0) 2) fresh_kernel.
Proof.
  exact (negative_index_counts_from_the_end unvalidated_config unit_draws 2
           ltac:(simpl; lia)).
Defined.

(** ** For a step size in [0,1] the trajectory stays bounded *)

Lemma vget_vadd u v i :
  (i < length u)%nat -> vget (vadd u v) i = vget u i + vget v i.
Proof. intros. unfold vadd. by rewrite vget_vtab. Qed.

Lemma vget_vneg v i : (i < length v)%nat -> vget (vneg v) i = - vget v i.
Proof. intros. unfold vneg. by rewrite vget_vtab. Qed.

Lemma length_vneg v : length (vneg v) = length v.
Proof. apply length_vtab. Qed.

Lemma euler_step_x_entry dt beta q etas x S P n i :
  length x = n -> nrows S = n -> (i < n)%nat ->
  vget (fst (fst (euler_step dt beta q etas (x, S, P)))) i
  = vget x i
    + dt * (- vget x i
            + rsum (ncols S) (fun j => mget S i j * vget (torch_tanh_v (smulv beta x)) j)).
Proof.
  intros Hx HS Hi. cbn [euler_step fst snd].
  rewrite vget_vadd by lia.
  rewrite vget_smulv by (rewrite length_vadd, length_vneg; lia).
  rewrite vget_vadd by (rewrite length_vneg; lia).
  rewrite vget_vneg by lia.
  unfold matvec. rewrite vget_vtab by lia. done.
Qed.

Lemma euler_step_S_entry dt beta q etas x S P n i j :
  length x = n -> nrows S = n -> ncols S = n -> nrows P = n -> ncols P = n ->
  (i < n)%nat -> (j < n)%nat ->
  mget (snd (fst (euler_step dt beta q etas (x, S, P)))) i j
  = mget S i j
    + dt * (- mget S i j + tanh (beta * vget x i) * tanh (beta * vget x j)
            + tanh (beta * mget P i j)).
Proof.
  intros Hx HSr HSc HPr HPc Hi Hj. cbn [euler_step fst snd].
  rewrite mget_madd by lia.
  rewrite mget_smulm by (cbn [nrows ncols madd mneg mtab]; lia).
  rewrite mget_madd by (cbn [nrows ncols madd mneg mtab]; lia).
  rewrite mget_madd by (cbn [nrows ncols madd mneg mtab]; lia).
  rewrite mget_mneg by lia.
  rewrite mget_outer by (rewrite length_torch_tanh_v; lia).
  rewrite !vget_torch_tanh_v by lia.
  unfold torch_tanh_m.
  rewrite mget_mmap by (cbn [nrows ncols smulm mtab]; lia).
  rewrite mget_smulm by lia. done.
Qed.

Lemma euler_step_P_entry dt beta q etas x S P n i j :
  nrows S = n -> ncols S = n -> nrows P = n -> ncols P = n -> nrows etas = n ->
  (i < n)%nat -> (j < n)%nat ->
  mget (snd (euler_step dt beta q etas (x, S, P))) i j
  = mget P i j
    + dt * (- mget P i j
            + q * mget (einsum_im_jm_km_lm_kl etas etas etas etas
                          (torch_tanh_m (smulm beta P))) i j
            + tanh (beta * mget S i j)).
Proof.
  intros HSr HSc HPr HPc He Hi Hj. cbn [euler_step fst snd].
  rewrite mget_madd by lia.
  rewrite mget_smulm by (cbn [nrows ncols madd mneg mtab]; lia).
  rewrite mget_madd by (cbn [nrows ncols madd mneg mtab]; lia).
  rewrite mget_madd by (cbn [nrows ncols madd mneg mtab]; lia).
  rewrite mget_mneg by lia.
  rewrite mget_smulm by (cbn [nrows ncols einsum_im_jm_km_lm_kl mtab]; lia).
  unfold torch_tanh_m at 2.
  rewrite mget_mmap by (cbn [nrows ncols smulm mtab]; lia).
  rewrite mget_smulm by lia. done.
Qed.

Lemma rsum_bound_le n f B :
  (forall i, (i < n)%nat -> - B <= f i <= B) ->
  - (INR n * B) <= rsum n f <= INR n * B.
Proof.
  induction n as [|n IH]; intros H.
  - simpl. lra.
  - change (rsum (S n) f) with (rsum n f + f n).
    rewrite S_INR, Rmult_plus_distr_r.
    pose proof (IH (fun i Hi => H i ltac:(lia))).
    pose proof (H n ltac:(lia)). lra.
Qed.

Lemma convex_update_bound v u dt B :
  0 <= dt <= 1 -> - B <= v <= B -> - B <= u <= B ->
  - B <= v + dt * (- v + u) <= B.
Proof. intros Hdt Hv Hu. split; nra. Qed.

Lemma scaled_einsum_bound n k e :
  0 < n -> 0 < k -> - (k * (n * n)) < e < k * (n * n) ->
  - (k / n) < 1 / (n * (n * n)) * e < k / n.
Proof.
  intros Hn Hk He.
  assert (Hn3 : 0 < n * (n * n)) by nra.
  assert (Hq : 0 < 1 / (n * (n * n))) by (apply Rdiv_lt_0_compat; lra).
  assert (H1 : 1 / (n * (n * n)) * (k * (n * n)) = k / n) by (field; lra).
  split; nra.
Qed.

Lemma x0_of_pm1 c d i :
  runnable c ->
  (forall a b, randint_draw d a b = 0%Z \/ randint_draw d a b = 1%Z) ->
  (i < Z.to_nat (N c))%nat ->
  vget (x0_of c d) i = 1 \/ vget (x0_of c d) i = -1.
Proof.
  intros Hr Hb Hi. rewrite vget_x0_of by done.
  unfold corruption_vector_of. rewrite nth_corruption_vector by done.
  destruct (mem_of_pm1 c d i Hr Hb Hi) as [-> | ->];
    destruct (Rle_dec _ _); [left|right|right|left]; lra.
Qed.

Lemma state_after_bounded c d Bx BS BP n :
  runnable c ->
  (forall a b, randint_draw d a b = 0%Z \/ randint_draw d a b = 1%Z) ->
  0 <= dt c <= 1 ->
  2 <= BS -> 1 + IZR (K c) / IZR (N c) <= BP -> IZR (N c) * BS <= Bx ->
  (forall i j, (i < Z.to_nat (N c))%nat -> (j < Z.to_nat (N c))%nat ->
               - BS <= mget (S0_of c d) i j <= BS) ->
  (forall i j, (i < Z.to_nat (N c))%nat -> (j < Z.to_nat (N c))%nat ->
               - BP <= mget (P0_of c d) i j <= BP) ->
  bounded_by (Z.to_nat (N c)) Bx BS BP (state_after c d n).
Proof.
  intros Hr Hb Hdt HBS HBP HBx HS0 HP0. pose proof Hr as (HN & Hidx & _).
  assert (HK : (0 < K c)%Z) by lia.
  assert (HNr : 0 < IZR (N c)) by (by apply IZR_lt).
  assert (HKr : 0 < IZR (K c)) by (by apply IZR_lt).
  assert (EN : INR (Z.to_nat (N c)) = IZR (N c))
    by (rewrite INR_IZR_INZ, Z2Nat.id by lia; done).
  induction n as [|n IH].
  - split; [|split; done].
    intros i Hi. cbn [state_after euler_iter fst snd].
    assert (1 <= IZR (N c)) by (apply IZR_le; lia).
    destruct (x0_of_pm1 c d i Hr Hb Hi) as [-> | ->]; nra.
  - destruct (state_after_sym c d n) as (Hlen & (HSr & HSc & _) & (HPr & HPc & _)).
    destruct IH as (Hx & HS & HP).
    unfold state_after in *. rewrite euler_iter_S.
    destruct (euler_iter n _ _ _ _ _) as [[x S] P]. cbn [fst snd] in *.
    split; [|split].
    + intros i Hi.
      rewrite (euler_step_x_entry _ _ _ _ _ _ _ (Z.to_nat (N c))) by done.
      apply convex_update_bound; [done|by apply Hx|].
      rewrite HSc.
      assert (Hsum : - (INR (Z.to_nat (N c)) * BS)
                     <= rsum (Z.to_nat (N c))
                          (fun j => mget S i j * vget (torch_tanh_v (smulv (beta c) x)) j)
                     <= INR (Z.to_nat (N c)) * BS).
      { apply rsum_bound_le. intros j Hj.
        rewrite vget_torch_tanh_v by lia.
        pose proof (tanh_bounds (beta c * vget x j)).
        pose proof (HS i j Hi Hj). split; nra. }
      rewrite EN in Hsum. lra.
    + intros i j Hi Hj.
      rewrite (euler_step_S_entry _ _ _ _ _ _ _ (Z.to_nat (N c))) by done.
      replace (- mget S i j + tanh (beta c * vget x i) * tanh (beta c * vget x j)
               + tanh (beta c * mget P i j))
        with (- mget S i j
              + (tanh (beta c * vget x i) * tanh (beta c * vget x j)
                 + tanh (beta c * mget P i j))) by lra.
      apply convex_update_bound; [done|by apply HS|].
      pose proof (tanh_bounds (beta c * vget x i)).
      pose proof (tanh_bounds (beta c * vget x j)).
      pose proof (tanh_bounds (beta c * mget P i j)). split; nra.
    + intros i j Hi Hj.
      rewrite (euler_step_P_entry _ _ _ _ _ _ _ (Z.to_nat (N c))) by done.
      replace (- mget P i j
               + 1 / IZR (N c ^ 3)
                 * mget (einsum_im_jm_km_lm_kl (etas_of c d) (etas_of c d)
                           (etas_of c d) (etas_of c d)
                           (torch_tanh_m (smulm (beta c) P))) i j
               + tanh (beta c * mget S i j))
        with (- mget P i j
              + (1 / IZR (N c ^ 3)
                 * mget (einsum_im_jm_km_lm_kl (etas_of c d) (etas_of c d)
                           (etas_of c d) (etas_of c d)
                           (torch_tanh_m (smulm (beta c) P))) i j
                 + tanh (beta c * mget S i j))) by lra.
      apply convex_update_bound; [done|by apply HP|].
      pose proof (tanh_bounds (beta c * mget S i j)).
      assert (HE : - (IZR (K c) / IZR (N c))
                   < 1 / IZR (N c ^ 3)
                     * mget (einsum_im_jm_km_lm_kl (etas_of c d) (etas_of c d)
                               (etas_of c d) (etas_of c d)
                               (torch_tanh_m (smulm (beta c) P))) i j
                   < IZR (K c) / IZR (N c)).
      { rewrite IZR_N3. apply scaled_einsum_bound; try done.
        apply einsum_entry_bound; try done.
        intros k l Hk Hl. unfold torch_tanh_m.
        rewrite mget_mmap by (cbn [nrows ncols smulm mtab]; lia).
        apply tanh_bounds. }
      lra.
Qed.

(** X10. For every accepted configuration with a step size in [0,1] and
    every draw of the memory bank, the loop cannot blow up: whenever the
    entries of [S0] are within [BS >= 2] and those of [P0] within
    [BP >= 1 + K/N] in absolute value, then after any number of iterations
    the entries of [S] are still within [BS], those of [P] within [BP], and
    those of [x] within any [Bx >= N * BS]. *)
Theorem trajectory_stays_bounded
    (c : config) (d : draws) (n : nat) (Bx BS BP : R) :
  runnable c ->
  (forall a b, randint_draw d a b = 0%Z \/ randint_draw d a b = 1%Z) ->
  0 <= dt c <= 1 ->
  2 <= BS -> 1 + IZR (K c) / IZR (N c) <= BP -> IZR (N c) * BS <= Bx ->
  (forall i j, (i < Z.to_nat (N c))%nat -> (j < Z.to_nat (N c))%nat ->
               - BS <= mget (S0_of c d) i j <= BS) ->
  (forall i j, (i < Z.to_nat (N c))%nat -> (j < Z.to_nat (N c))%nat ->
               - BP <= mget (P0_of c d) i j <= BP) ->
  exists s x S P,
    run (setup c d ;;; integrate c n) = Ok s /\
    value_of s "x" = Some (OVec x) /\
    value_of s "S" = Some (OMat S) /\
    value_of s "P" = Some (OMat P) /\
    (forall i, (i < Z.to_nat (N c))%nat -> - Bx <= vget x i <= Bx) /\
    (forall i j, (i < Z.to_nat (N c))%nat -> (j < Z.to_nat (N c))%nat ->
                 - BS <= mget S i j <= BS) /\
    (forall i j, (i < Z.to_nat (N c))%nat -> (j < Z.to_nat (N c))%nat ->
                 - BP <= mget P i j <= BP).
Proof.
  intros Hr Hb Hdt HBS HBP HBx HS0 HP0.
  destruct (simulation_steps_exec c d n Hr) as (s & Hrun & Hinv & _).
  destruct (loop_inv_values _ _ _ _ Hinv)
    as (_ & _ & _ & _ & _ & _ & Hx & HS & HP).
  destruct (state_after_bounded c d Bx BS BP n Hr Hb Hdt HBS HBP HBx HS0 HP0)
    as (H1 & H2 & H3).
  exists s, (fst (fst (state_after c d n))), (snd (fst (state_after c d n))),
    (snd (state_after c d n)).
  split; [apply (run_Ok _ tt), Hrun|]. done.
Qed.

Lemma trajectory_stays_bounded_witness :
  exists s S,
    run (setup (mkConfig 1 1 3 (1 / 2) 1 0 0) unit_draws ;;;
         integrate (mkConfig 1 1 3 (1 / 2) 1 0 0) 3) = Ok s /\
    value_of s "S" = Some (OMat S) /\
    - (2 + Rabs (mget (S0_of (mkConfig 1 1 3 (1 / 2) 1 0 0) unit_draws) 0 0))
    <= mget S 0 0
    <= 2 + Rabs (mget (S0_of (mkConfig 1 1 3 (1 / 2) 1 0 0) unit_draws) 0 0).
Proof.
  set (c := mkConfig 1 1 3 (1 / 2) 1 0 0).
  set (BS := 2 + Rabs (mget (S0_of c unit_draws) 0 0)).
  set (BP := 2 + Rabs (mget (P0_of c unit_draws) 0 0)).
  assert (Habs : forall v, - (2 + Rabs v) <= v <= 2 + Rabs v).
  { intros v. pose proof (Rle_abs v). pose proof (Rle_abs (- v)).
    rewrite Rabs_Ropp in *. lra. }
  destruct (trajectory_stays_bounded c unit_draws 3 BS BS BP)
    as (s & x & S & P & Hrun & _ & HS & _ & _ & HbS & _).
  - apply runnable_small.
  - intros a b. right. reflexivity.
  - simpl. lra.
  - unfold BS. pose proof (Rabs_pos (mget (S0_of c unit_draws) 0 0)). lra.
  - unfold BP. pose proof (Rabs_pos (mget (P0_of c unit_draws) 0 0)).
    simpl. lra.
  - simpl. lra.
  - intros i j Hi Hj. simpl in Hi, Hj.
    replace i with 0%nat by lia. replace j with 0%nat by lia. apply Habs.
  - intros i j Hi Hj. simpl in Hi, Hj.
    replace i with 0%nat by lia. replace j with 0%nat by lia. apply Habs.
  - exists s, S. split; [exact Hrun|]. split; [exact HS|].
    apply HbS; simpl; lia.
Defined.

(** ** The seed at the two extremes of the corruption level *)

Lemma count_occ_all (l : list Z) (v w : Z) :
  (forall i, (i < length l)%nat -> nth i l 0%Z = v) ->
  count_occ Z.eq_dec l w = if Z.eq_dec v w then length l else 0%nat.
Proof.
  induction l as [|a l IH]; intros H.
  - simpl. by destruct (Z.eq_dec v w).
  - assert (Ha : a = v) by (apply (H 0%nat); simpl; lia).
    assert (Hl : forall i, (i < length l)%nat -> nth i l 0%Z = v)
      by (intros i Hi; apply (H (S i)); simpl; lia).
    cbn [count_occ length]. rewrite (IH Hl). subst a.
    destruct (Z.eq_dec v w); done.
Qed.

(** X11. For every accepted configuration, every draw of the memory bank
    and draws of [torch.rand] in [0,1): with a corruption level [<= 0] no
    entry is flipped and the reported initial distance is 0; with a
    corruption level [> 1] every entry is flipped and the reported initial
    distance is [sqrt(4 * N)], the largest possible. *)
Theorem initial_distance_at_extremes (c : config) (d : draws) (n : nat) :
  runnable c ->
  (forall a b, randint_draw d a b = 0%Z \/ randint_draw d a b = 1%Z) ->
  (forall i, 0 <= rand_draw d i < 1) ->
  exists s,
    run (setup c d ;;; integrate c n) = Ok s /\
    (corruption_level c <= 0 -> initial_distance s = Ok (0, s)) /\
    (1 < corruption_level c ->
       initial_distance s = Ok (sqrt (4 * IZR (N c)), s)).
Proof.
  intros Hr Hb Hu. pose proof Hr as (HN & _).
  destruct (simulation_steps_exec c d n Hr) as (s & Hrun & Hinv & _).
  exists s. split; [apply (run_Ok _ tt), Hrun|].
  rewrite (initial_distance_exec c d _ _ Hinv).
  rewrite initial_distance_value by done.
  split; intros Hc.
  - rewrite (count_occ_all _ 1%Z).
    + destruct (Z.eq_dec 1%Z (-1)%Z); [lia|]. simpl. by rewrite Rmult_0_r, sqrt_0.
    + intros i Hi. rewrite length_corruption_vector_of in Hi.
      unfold corruption_vector_of. rewrite nth_corruption_vector by done.
      destruct (Rle_dec _ _) as [_|Hn]; [done|].
      exfalso. pose proof (Hu i). lra.
  - rewrite (count_occ_all _ (-1)%Z).
    + destruct (Z.eq_dec (-1)%Z (-1)%Z); [|lia].
      rewrite length_corruption_vector_of, INR_IZR_INZ, Z2Nat.id by lia. done.
    + intros i Hi. rewrite length_corruption_vector_of in Hi.
      unfold corruption_vector_of. rewrite nth_corruption_vector by done.
      destruct (Rle_dec _ _) as [Hle|_]; [|done].
      exfalso. pose proof (Hu i). lra.
Qed.

Lemma initial_distance_at_extremes_witness :
  exists s,
    run (setup unvalidated_config unit_draws ;;;
         integrate unvalidated_config 1) = Ok s /\
    initial_distance s = Ok (sqrt (4 * IZR (N unvalidated_config)), s).
Proof.
  destruct (initial_distance_at_extremes unvalidated_config unit_draws 1)
    as (s & Hrun & _ & Hd).
  - repeat split; simpl; try lia. lra.
  - intros a b. right. reflexivity.
  - intros i. simpl. lra.
  - exists s. split; [exact Hrun|]. apply Hd. simpl. lra.
Defined.
